(** * Pystack: the command-line driver [src/pystack.cc]

    A shallow embedding of [main], [RunOnce] and [FrameHash], together
    with the properties of the driver that the specification states.

    The driver talks to three kinds of collaborators that are not part
    of the translation unit:
    - the C and C++ run-time ([strtol], [getopt_long], [std::stod],
      [std::hash], [std::unordered_map], [operator<<]);
    - the headers [exc.h], [ptrace.h], [pyframe.h] and [config.h] of the
      repository;
    - the operating system and the target process (what an attach, a
      walk or a clock reading yields in a given run).
    The first group is modelled by executable definitions where the
    library documents the behaviour ([strtol], GNU [getopt_long] without
    [POSIXLY_CORRECT]) and by the fields of the class [Runtime]
    otherwise: floating point, hashing, the iteration order of the
    bucket map, the resolution of the clock.  The headers give the
    types [Frame] and [exn] and the calls of the section [Calls].  The
    last group is an oracle, the record [World]: what each call of a run
    yields.  Process ids and addresses are in [Z]; the [size_t]
    counters and the 64-bit arithmetic of [std::chrono] wrap around. *)

From Stdlib Require Import ZArith NArith String Ascii List Bool Lia.
From Stdlib Require Import Permutation DecimalString Floats.SpecFloat.
Import ListNotations.

Local Open Scope string_scope.
Local Open Scope Z_scope.

(** ** Machine integers of the platform (LP64) *)

Module Limits.
Definition LONG_MAX : Z := 2 ^ 63 - 1.
Definition LONG_MIN : Z := - 2 ^ 63.
(** [std::numeric_limits<pid_t>]: [pid_t] is a 32-bit [int]. *)
Definition PID_MAX : Z := 2 ^ 31 - 1.
Definition PID_MIN : Z := - 2 ^ 31.
(** [size_t] is 64 bits wide; [++] on it wraps around. *)
Definition SIZE_MOD : N := (2 ^ 64)%N.
Definition size_t_incr (n : N) : N := ((n + 1) mod SIZE_MOD)%N.
(** The value a [long] holds after signed arithmetic whose exact
    result is [z]: the low 64 bits in two's complement, as the
    machine's [add] and [imul] leave them. *)
Definition wrap_long (z : Z) : Z := (z + 2 ^ 63) mod 2 ^ 64 - 2 ^ 63.
End Limits.

(** ** Text produced by [operator<<] on integers *)

Definition show_long (z : Z) : string := NilZero.string_of_int (Z.to_int z).
Definition show_size_t (n : N) : string := NilZero.string_of_uint (N.to_uint n).

(** ** [strtol(s, nullptr, 10)] *)

Module Strtol.
Definition isspace (c : ascii) : bool :=
  let n := nat_of_ascii c in
  Nat.eqb n 32 || (Nat.leb 9 n && Nat.leb n 13).

Definition digit (c : ascii) : option Z :=
  let n := Z.of_nat (nat_of_ascii c) in
  if (48 <=? n) && (n <=? 57) then Some (n - 48) else None.

Fixpoint skip_space (s : string) : string :=
  match s with
  | String c r => if isspace c then skip_space r else s
  | EmptyString => s
  end.

(** The longest run of decimal digits at the head of [s], as a number;
    0 when [s] does not start with a digit. *)
Fixpoint digits (acc : Z) (s : string) : Z :=
  match s with
  | String c r =>
      match digit c with
      | Some d => digits (10 * acc + d) r
      | None => acc
      end
  | EmptyString => acc
  end.

Definition clamp (z : Z) : Z :=
  if z >? Limits.LONG_MAX then Limits.LONG_MAX
  else if z <? Limits.LONG_MIN then Limits.LONG_MIN
  else z.

(** An optional sign: is it a minus, and what follows it. *)
Definition sign (s : string) : bool * string :=
  match s with
  | String c r =>
      if Ascii.eqb c "-" then (true, r)
      else if Ascii.eqb c "+" then (false, r)
      else (false, s)
  | EmptyString => (false, s)
  end.

(** White space, an optional sign, then digits.  No digits gives 0 and
    a value that does not fit a [long] is clamped; [errno] and the end
    pointer, the only signs of either, are not looked at by the
    caller. *)
Definition strtol (s : string) : Z :=
  let (minus, r) := sign (skip_space s) in
  clamp (if minus then - digits 0 r else digits 0 r).

Definition starts_with_digit (s : string) : bool :=
  match s with
  | String c _ => match digit c with Some _ => true | None => false end
  | EmptyString => false
  end.

(** "Not numeric at all": after white space and a sign no digit
    follows. *)
Definition non_numeric (s : string) : bool :=
  negb (starts_with_digit (snd (sign (skip_space s)))).
End Strtol.

(** ** [getopt_long] *)

Module Getopt.
Inductive has_arg_t := no_argument | required_argument.

(** [struct option]; [flag] is the null pointer in every row of the
    driver's table, so it is a boolean "is set". *)
Record option_t := mk_option
  { name : string; has_arg : has_arg_t; flag : bool; val : ascii }.

(** One return of [getopt_long]: the value [c], [optarg] and the index
    written to [option_index]. *)
Record ret := mk_ret { c : ascii; optarg : string; option_index : nat }.

Section Scan.
Variable optstring : string.
Variable longopts : list option_t.

(** Is [ch] an option character of [optstring], and does a colon
    follow it? *)
Fixpoint short_lookup (ch : ascii) (s : string) : option has_arg_t :=
  match s with
  | EmptyString => None
  | String o r =>
      if Ascii.eqb o ch then
        match r with
        | String ":" _ => Some required_argument
        | _ => Some no_argument
        end
      else short_lookup ch r
  end.

Definition unknown : ret := mk_ret "?" "" 0.

(** The option characters of one element ["-abc"], [s] being what is
    left of it.  [next] is the following element of [argv], taken as
    the argument of an option that needs one and ends the element.
    The boolean tells whether [next] was taken. *)
Fixpoint scan_short (s : string) (next : option string)
  : list ret * bool :=
  match s with
  | EmptyString => ([], false)
  | String ch r =>
      match (if Ascii.eqb ch ":" then None else short_lookup ch optstring) with
      | None =>
          let (l, b) := scan_short r next in (unknown :: l, b)
      | Some no_argument =>
          let (l, b) := scan_short r next in (mk_ret ch "" 0 :: l, b)
      | Some required_argument =>
          match r, next with
          | String _ _, _ => ([mk_ret ch r 0], false)
          | EmptyString, Some a => ([mk_ret ch a 0], true)
          | EmptyString, None => ([unknown], false)
          end
      end
  end.

(** ["name=value"] is split at the first ['=']. *)
Fixpoint split_eq (s : string) : string * option string :=
  match s with
  | EmptyString => (EmptyString, None)
  | String "=" r => (EmptyString, Some r)
  | String ch r => let (n, v) := split_eq r in (String ch n, v)
  end.

Fixpoint indexed {A} (i : nat) (l : list A) : list (nat * A) :=
  match l with
  | [] => []
  | x :: r => (i, x) :: indexed (S i) r
  end.

(** An exact name wins; otherwise the name may be abbreviated as long
    as a single row of the table starts with it. *)
Definition long_lookup (nm : string) : option (nat * option_t) :=
  let rows := indexed 0 longopts in
  match List.find (fun r => String.eqb nm (name (snd r))) rows with
  | Some r => Some r
  | None =>
      match List.filter (fun r => String.prefix nm (name (snd r))) rows with
      | [r] => Some r
      | _ => None
      end
  end.

(** One element ["--name"] or ["--name=value"], [s] being what
    follows the two dashes. *)
Definition scan_long (s : string) (next : option string) : ret * bool :=
  let (nm, v) := split_eq s in
  match long_lookup nm with
  | None => (unknown, false)
  | Some (i, o) =>
      let r := if flag o then "000"%char else val o in
      match has_arg o, v, next with
      | no_argument, None, _ => (mk_ret r "" i, false)
      | no_argument, Some _, _ => (unknown, false)
      | required_argument, Some a, _ => (mk_ret r a i, false)
      | required_argument, None, Some a => (mk_ret r a i, true)
      | required_argument, None, None => (unknown, false)
      end
  end.

(** What the successive calls return before -1, the elements of
    [argv] taken as options or option arguments, and the elements
    left as operands.  [getopt_long] moves the operands behind the
    options as it goes (the table does not ask for POSIX order). *)
Record scanned := mk_scanned
  { rets : list ret; taken : list string; operands : list string }.

Definition more (rs : list ret) (ts : list string) (sc : scanned) :=
  mk_scanned (rs ++ rets sc) (ts ++ taken sc) (operands sc).

Inductive element :=
| Terminator                 (* "--" *)
| Long (s : string)          (* "--s", s not empty *)
| Short (s : string)         (* "-s", s not empty *)
| Operand.                   (* "-" and whatever has no dash in front *)

Definition classify (a : string) : element :=
  match a with
  | String d r =>
      if Ascii.eqb d "-" then
        match r with
        | EmptyString => Operand
        | String d' r' =>
            if Ascii.eqb d' "-" then
              match r' with
              | EmptyString => Terminator
              | _ => Long r'
              end
            else Short r
        end
      else Operand
  | EmptyString => Operand
  end.

Definition nothing : scanned := mk_scanned [] [] [].

Fixpoint scan (args : list string) : scanned :=
  match args with
  | [] => nothing
  | a :: rest =>
      match classify a with
      | Terminator => mk_scanned [] [a] rest
      | Long s =>
          match rest with
          | [] => more [fst (scan_long s None)] [a] nothing
          | b :: rest' =>
              let (r, used) := scan_long s (Some b) in
              if used then more [r] [a; b] (scan rest')
              else more [r] [a] (scan rest)
          end
      | Short s =>
          match rest with
          | [] => more (fst (scan_short s None)) [a] nothing
          | b :: rest' =>
              let (rs, used) := scan_short s (Some b) in
              if used then more rs [a; b] (scan rest')
              else more rs [a] (scan rest)
          end
      | Operand =>
          let sc := scan rest in
          mk_scanned (rets sc) (taken sc) (a :: operands sc)
      end
  end.

(** [argv] once -1 has been returned, and [optind] then. *)
Definition permuted (argv : list string) : list string :=
  match argv with
  | [] => []
  | a0 :: args => let sc := scan args in a0 :: taken sc ++ operands sc
  end.

Definition final_optind (argv : list string) : Z :=
  1 + Z.of_nat (List.length (taken (scan (List.tl argv)))).
End Scan.
End Getopt.

(** ** Frames, stacks and exceptions ([pyframe.h], [exc.h]) *)

(** Modelled from the spec: the class [Frame] of [pyframe.h], which is
    not part of the translation unit.  One call-stack entry holds the
    source file, the function name and the line; two frames are equal
    iff all three fields match. *)
Record Frame := mk_frame { file : string; function : string; line : N }.

Definition frame_eqb (a b : Frame) : bool :=
  String.eqb (file a) (file b) && String.eqb (function a) (function b)
  && N.eqb (line a) (line b).

(** [typedef std::vector<Frame> frames_t]; [GetStack] fills it from the
    innermost frame to the outermost one. *)
Definition frames_t := list Frame.

(** [operator==] of [std::vector]: same size and equal elements. *)
Fixpoint frames_eqb (a b : frames_t) : bool :=
  match a, b with
  | [], [] => true
  | x :: a', y :: b' => frame_eqb x y && frames_eqb a' b'
  | _, _ => false
  end.

(** Modelled from the spec: the exception classes of [exc.h].  A
    [FatalException] ends the run, a [NonFatalException] spoils one
    capture; the third constructor is any other [std::exception].  Each
    carries the text of [what()]. *)
Inductive exn :=
| FatalException (what : string)
| NonFatalException (what : string)
| std_exception (what : string).

Definition what (e : exn) : string :=
  match e with
  | FatalException m | NonFatalException m | std_exception m => m
  end.

(** ** What the C++ run-time and [config.h] supply *)

Class Runtime := mk_runtime
  { (** the values of type [double] *)
    double : Type;
    (** [std::stod]; [None] when it throws ([std::invalid_argument],
        [std::out_of_range]) *)
    stod : string -> option double;
    (** the literals [0] and [0.01] *)
    lit_0 : double;
    lit_0_01 : double;
    (** a [double] used as a condition *)
    to_bool : double -> bool;
    (** [static_cast<long>(x * 1000000)] *)
    micros : double -> Z;
    (** [PACKAGE_STRING] of [config.h] *)
    PACKAGE_STRING : string;
    (** [operator<<] of [Frame] *)
    show_frame : Frame -> string;
    (** [std::hash<size_t>] and [std::hash<std::string>] *)
    hash_size_t : N -> N;
    hash_string : string -> N;
    (** the order in which a range-for visits an [unordered_map] with
        the given entries *)
    iteration : list (frames_t * N) -> list (frames_t * N);
    (** ticks of [std::chrono::system_clock] in a microsecond *)
    ticks_per_us : Z }.

(** What the standards promise of those. *)
Class RuntimeOk (R : Runtime) : Prop := mk_runtime_ok
  { to_bool_0 : to_bool lit_0 = false;
    micros_long : forall d, Limits.LONG_MIN <= micros d <= Limits.LONG_MAX;
    iteration_perm : forall m, Permutation (iteration m) m;
    ticks_pos : 0 < ticks_per_us }.

(** ** The run: target, operating system, clock *)

(** What the collaborators do in one run of the driver.  Calls of the
    same function are numbered from 0 in the order they are made. *)
Record World := mk_world
  { (** the exception the k-th [PtraceAttach] throws, if any *)
    attach_throws : nat -> option exn;
    (** the exception the k-th [PtraceDetach] throws, if any *)
    detach_throws : nat -> option exn;
    (** the outcome of [ThreadStateAddr] *)
    thread_state : exn + Z;
    (** the outcome of the k-th [GetStack] *)
    walk : nat -> exn + frames_t;
    (** the k-th reading of [system_clock::now()], in ticks *)
    clock : nat -> Z }.

(** The calls the driver makes, as a log; [thrown] is the exception the
    call ended with, if any. *)
Inductive event :=
| Attach (pid : Z) (thrown : option exn)
| Detach (pid : Z) (thrown : option exn)
| Locate (pid : Z) (thrown : option exn)
| Walk (pid addr : Z) (thrown : option exn)
| Now
| Sleep (us : Z).

(** The log (latest call first), how often each numbered call has been
    made, and what [main] has written to [std::cout] and [std::cerr].
    (What [getopt_long] itself reports about an option it does not know
    goes to [stderr] without passing through [main].) *)
Record state := mk_state
  { log : list event;
    attaches : nat; detaches : nat; walks : nat; readings : nat;
    cout : string; cerr : string }.

Definition start : state := mk_state [] 0 0 0 0 "" "".

(** ** Computations that may throw *)

Inductive outcome (A : Type) :=
| Ret (a : A)
| Throw (e : exn)
| Fuel.          (* the bound on loop iterations of the model ran out *)
Arguments Ret {A} a.
Arguments Throw {A} e.
Arguments Fuel {A}.

Definition M (A : Type) : Type := state -> outcome A * state.

Definition ret {A} (a : A) : M A := fun st => (Ret a, st).

Definition bind {A B} (m : M A) (k : A -> M B) : M B :=
  fun st =>
    match m st with
    | (Ret a, st') => k a st'
    | (Throw e, st') => (Throw e, st')
    | (Fuel, st') => (Fuel, st')
    end.

Declare Scope m_scope.
Delimit Scope m_scope with M.
Notation "x <- m ;; k" := (bind m (fun x => k))
  (at level 61, m at next level, right associativity) : m_scope.
Notation "m ;; k" := (bind m (fun _ => k))
  (at level 61, right associativity) : m_scope.
Local Open Scope m_scope.

(** [try { m } catch (const NonFatalException &) { h }] *)
Definition catch_non_fatal {A} (m : M A) (h : M A) : M A :=
  fun st =>
    match m st with
    | (Throw (NonFatalException _), st') => h st'
    | r => r
    end.

Definition put_cout (s : string) : M unit :=
  fun st =>
    (Ret tt, mk_state (log st) (attaches st) (detaches st) (walks st)
               (readings st) (cout st ++ s) (cerr st)).

Definition put_cerr (s : string) : M unit :=
  fun st =>
    (Ret tt, mk_state (log st) (attaches st) (detaches st) (walks st)
               (readings st) (cout st) (cerr st ++ s)).

Definition raise_if {A} (o : option exn) (a : A) : outcome A :=
  match o with None => Ret a | Some e => Throw e end.

Definition thrown_by {A} (r : exn + A) : option exn :=
  match r with inl e => Some e | inr _ => None end.

Definition result_of {A} (r : exn + A) : outcome A :=
  match r with inl e => Throw e | inr a => Ret a end.

Section Calls.
Variable w : World.

Definition PtraceAttach (pid : Z) : M unit :=
  fun st =>
    let r := attach_throws w (attaches st) in
    (raise_if r tt,
     mk_state (Attach pid r :: log st) (S (attaches st))
       (detaches st) (walks st) (readings st) (cout st) (cerr st)).

Definition PtraceDetach (pid : Z) : M unit :=
  fun st =>
    let r := detach_throws w (detaches st) in
    (raise_if r tt,
     mk_state (Detach pid r :: log st) (attaches st)
       (S (detaches st)) (walks st) (readings st) (cout st) (cerr st)).

Definition ThreadStateAddr (pid : Z) : M Z :=
  fun st =>
    let r := thread_state w in
    (result_of r,
     mk_state (Locate pid (thrown_by r) :: log st) (attaches st)
       (detaches st) (walks st) (readings st) (cout st) (cerr st)).

Definition GetStack (pid addr : Z) : M frames_t :=
  fun st =>
    let r := walk w (walks st) in
    (result_of r,
     mk_state (Walk pid addr (thrown_by r) :: log st) (attaches st)
       (detaches st) (S (walks st)) (readings st) (cout st) (cerr st)).

Definition system_clock_now : M Z :=
  fun st =>
    (Ret (clock w (readings st)),
     mk_state (Now :: log st) (attaches st) (detaches st) (walks st)
       (S (readings st)) (cout st) (cerr st)).

Definition sleep_for (us : Z) : M unit :=
  fun st =>
    (Ret tt,
     mk_state (Sleep us :: log st) (attaches st) (detaches st) (walks st)
       (readings st) (cout st) (cerr st)).
End Calls.

(** ** The driver *)

Definition usage_str : string :=
  "Usage: pystack [-h|--help] PID" ++ String "010" "".

Definition endl : string := String "010" "".

Section Driver.
Context {R : Runtime}.
Variable w : World.

(** [rbegin() .. rend()]: from the outermost frame to the innermost
    one. *)
Definition reversed (stack : frames_t) : list Frame := List.rev stack.

Fixpoint put_lines (fs : list Frame) : M unit :=
  match fs with
  | [] => ret tt
  | f :: r => put_cout (show_frame f ++ endl) ;; put_lines r
  end.

Definition RunOnce (pid addr : Z) : M unit :=
  stack <- GetStack w pid addr ;;
  put_lines (reversed stack).

(** [FrameHash::operator()]: [i] is the loop counter, [hash] the
    accumulator. *)
Fixpoint FrameHash_loop (i : N) (frames : frames_t) (hash : N) : N :=
  match frames with
  | [] => hash
  | f :: r =>
      let hash := N.lxor hash (hash_size_t i) in
      let hash := N.lxor hash (hash_string (file f)) in
      FrameHash_loop (i + 1) r hash
  end.

Definition FrameHash (frames : frames_t) : N := FrameHash_loop 0 frames 0.

(** [std::unordered_map<frames_t, size_t, FrameHash>]: its entries.
    A key is looked up by its hash value first, then by [operator==]. *)
Definition buckets_t := list (frames_t * N).

Definition same_key (frames key : frames_t) : bool :=
  N.eqb (FrameHash key) (FrameHash frames) && frames_eqb key frames.

(** [buckets.find(frames)]: the count of the entry found, [None] for
    [buckets.end()]. *)
Fixpoint find (frames : frames_t) (buckets : buckets_t) : option N :=
  match buckets with
  | [] => None
  | (k, n) :: r => if same_key frames k then Some n else find frames r
  end.

(** [it->second++] at the entry [find] returns. *)
Fixpoint increment (frames : frames_t) (buckets : buckets_t) : buckets_t :=
  match buckets with
  | [] => []
  | (k, n) :: r =>
      if same_key frames k then (k, Limits.size_t_incr n) :: r
      else (k, n) :: increment frames r
  end.

(** Lines 125-130. *)
Definition count_sample (frames : frames_t) (buckets : buckets_t)
  : buckets_t :=
  match find frames buckets with
  | None => (buckets ++ [(frames, 1%N)])%list
  | Some _ => increment frames buckets
  end.

(** [t + us] for a [time_point] of the system clock and a
    [std::chrono::microseconds], lines 119-121 and 135: the
    microseconds are converted to the ticks of the clock by a
    multiplication and added, both in the [rep] of the clock, a
    [long].  An overflow of either, undefined in C++, wraps around in
    the code the compiler emits. *)
Definition plus_micros (t us : Z) : Z :=
  Limits.wrap_long (t + Limits.wrap_long (ticks_per_us * us)).

(** Lines 122-141.  [deadline] is the variable [end]; both it and the
    clock readings are in ticks. *)
Fixpoint sample_loop (fuel : nat) (pid addr interval deadline : Z)
    (buckets : buckets_t) (empty : N) : M (buckets_t * N) :=
  match fuel with
  | O => fun st => (Fuel, st)
  | S fuel =>
      be <- catch_non_fatal
              (frames <- GetStack w pid addr ;;
               ret (count_sample frames buckets, empty))
              (ret (buckets, Limits.size_t_incr empty)) ;;
      now <- system_clock_now w ;;
      if plus_micros now interval >=? deadline then ret be
      else
        PtraceDetach w pid ;;
        sleep_for interval ;;
        PtraceAttach w pid ;;
        sample_loop fuel pid addr interval deadline (fst be) (snd be)
  end.

(** Each frame followed by [';'], lines 153-155. *)
Fixpoint put_each (fs : list Frame) : string :=
  match fs with
  | [] => ""
  | f :: r => show_frame f ++ ";" ++ put_each r
  end.

(** One bucket as lines 151-156 write it.  The key is not empty:
    [first] is its element 0, where [last] points, and the iterator
    runs over the reversed [rest] before it gets there. *)
Definition folded_line (first : Frame) (rest : list Frame) (n : N)
  : string :=
  put_each (List.rev rest) ++ show_frame first ++ " "
    ++ show_size_t n ++ endl.

(** Lines 146-157; the value is what [main] returns: 1 from inside
    the loop, 0 after it (by way of line 171). *)
Fixpoint print_buckets (kvs : list (frames_t * N)) : M Z :=
  match kvs with
  | [] => ret 0
  | (k, n) :: r =>
      match k with
      | [] => put_cerr ("uh oh" ++ endl) ;; ret 1
      | first :: rest =>
          put_cout (folded_line first rest n) ;; print_buckets r
      end
  end.

Definition print_empty (empty : N) : M unit :=
  if N.eqb empty 0 then ret tt
  else put_cout ("(null) " ++ show_size_t empty ++ endl).

(** Lines 115-157. *)
Definition sampling (fuel : nat) (pid addr : Z) (seconds sample_rate : double)
  : M Z :=
  let interval := micros sample_rate in
  t0 <- system_clock_now w ;;
  let deadline := plus_micros t0 (micros seconds) in
  be <- sample_loop fuel pid addr interval deadline [] 0%N ;;
  print_empty (snd be) ;;
  print_buckets (iteration (fst be)).

(** The [try] block, lines 112-160. *)
Definition try_block (fuel : nat) (pid : Z) (seconds sample_rate : double)
  : M Z :=
  PtraceAttach w pid ;;
  addr <- ThreadStateAddr w pid ;;
  if to_bool seconds then sampling fuel pid addr seconds sample_rate
  else RunOnce pid addr ;; ret 0.

(** How a process ends. *)
Inductive termination :=
| Exit (code : Z)       (* [main] returns *)
| Aborted               (* [abort()] *)
| Terminated            (* an exception nobody catches *)
| Unfinished.           (* the model's bound on iterations ran out *)

Record run := mk_run { ending : termination; final : state }.

(** The handlers, lines 161-170. *)
Definition handlers (r : outcome Z * state) : run :=
  match r with
  | (Ret code, st) => mk_run (Exit code) st
  | (Throw (FatalException m), st) =>
      mk_run (Exit 1) (snd (put_cerr (m ++ endl) st))
  | (Throw (NonFatalException m), st) =>
      mk_run (Exit 0) (snd (put_cerr (m ++ endl) st))
  | (Throw (std_exception m), st) =>
      mk_run (Exit 1) (snd (put_cerr (m ++ endl) st))
  | (Fuel, st) => mk_run Unfinished st
  end.

(** How the option loop, lines 61-100, is left. *)
Inductive options :=
| Break (seconds sample_rate : double)
| Return (code : Z) (text : string)     (* [text] went to [std::cout] *)
| Abort
| Uncaught.                             (* [std::stod] threw *)

(** The [switch] on the successive values of [getopt_long]. *)
Fixpoint option_loop (rets : list Getopt.ret) (seconds sample_rate : double)
  : options :=
  match rets with
  | [] => Break seconds sample_rate
  | r :: rest =>
      let c := Getopt.c r in
      if Ascii.eqb c "000" then option_loop rest seconds sample_rate
      else if Ascii.eqb c "h" then Return 0 usage_str
      else if Ascii.eqb c "r" then
        match stod (Getopt.optarg r) with
        | Some d => option_loop rest seconds d
        | None => Uncaught
        end
      else if Ascii.eqb c "s" then
        match stod (Getopt.optarg r) with
        | Some d => option_loop rest d sample_rate
        | None => Uncaught
        end
      else if Ascii.eqb c "v" then Return 0 (PACKAGE_STRING ++ endl)
      else if Ascii.eqb c "?" then option_loop rest seconds sample_rate
      else Abort
  end.

Definition optstring : string := "hjr:s:v".

Definition long_options : list Getopt.option_t :=
  [ Getopt.mk_option "help" Getopt.no_argument false "h";
    Getopt.mk_option "rate" Getopt.required_argument false "r";
    Getopt.mk_option "seconds" Getopt.required_argument false "s";
    Getopt.mk_option "version" Getopt.no_argument false "v" ].

Definition getopt_rets (argv : list string) : list Getopt.ret :=
  Getopt.rets (Getopt.scan optstring long_options (List.tl argv)).

Definition optind (argv : list string) : Z :=
  Getopt.final_optind optstring long_options argv.

(** [argv[argc - 1]] after the option loop. *)
Definition last_arg (argv : list string) : string :=
  List.nth (Z.to_nat (Z.of_nat (List.length argv) - 1))
    (Getopt.permuted optstring long_options argv) "".

Definition main (fuel : nat) (argv : list string) : run :=
  let argc := Z.of_nat (List.length argv) in
  match option_loop (getopt_rets argv) lit_0 lit_0_01 with
  | Return code text => mk_run (Exit code) (snd (put_cout text start))
  | Abort => mk_run Aborted start
  | Uncaught => mk_run Terminated start
  | Break seconds sample_rate =>
      if negb (optind argv =? argc - 1) then
        mk_run (Exit 1) (snd (put_cerr usage_str start))
      else
        let pid := Strtol.strtol (last_arg argv) in
        if (pid >? Limits.PID_MAX) || (pid <? Limits.PID_MIN) then
          mk_run (Exit 1)
            (snd (put_cerr ("PID " ++ show_long pid
                              ++ " is out of valid PID range." ++ endl)
                    start))
        else handlers (try_block fuel pid seconds sample_rate start)
  end.
End Driver.

Arguments main {R} w fuel argv.

(** ** The run-time of the GNU tool chain on x86-64

    An instance of [Runtime] for Linux on x86-64 with glibc and
    libstdc++: IEEE 754 binary64 for [double], [strtod] of glibc under
    [std::stod], the conversion [cvttsd2si] under the cast to [long],
    the hash functions and the [unordered_map] of libstdc++ and its
    system clock, which ticks in nanoseconds. *)

Module Sample.

(** *** [double] *)

Definition prec : Z := 53.
Definition emax : Z := 1024.

(** The [double] nearest to an integer, ties to even. *)
Definition of_Z (z : Z) : spec_float := binary_normalize prec emax z 0 false.

(** The sign [minus] put on a value that has none. *)
Definition signed (minus : bool) (x : spec_float) : spec_float :=
  match x with
  | S754_zero _ => S754_zero minus
  | S754_infinity _ => S754_infinity minus
  | S754_finite _ m e => S754_finite minus m e
  | S754_nan => S754_nan
  end.

(** The quotient [num / den] of two positive integers as a binary
    fraction [m * 2 ^ e] with 66 bits or more: [m] is odd when bits
    of the quotient are lost, so that [m * 2 ^ e] rounds to where the
    quotient does. *)
Definition quotient_bits (num den : Z) : Z * Z :=
  let k := Z.max 0 (65 + Z.log2 den - Z.log2 num) in
  let n := num * 2 ^ k in
  (2 * (n / den) + (if n mod den =? 0 then 0 else 1), - k - 1).

(** [x] is the quotient [num / den] exactly. *)
Definition is_quotient (x : spec_float) (num den : Z) : bool :=
  match x with
  | S754_finite false m e =>
      if 0 <=? e then Z.pos m * 2 ^ e * den =? num
      else Z.pos m * den =? num * 2 ^ (- e)
  | _ => false
  end.

(** The quotient rounded to 53 bits is below the least normal number
    2^-1022: the tininess that x86-64 detects after rounding. *)
Definition tiny (m e : Z) : bool :=
  match binary_normalize prec (2 ^ 20) m e false with
  | S754_finite _ _ e53 => e53 <? - 1074
  | _ => false
  end.

(** What [strtod] makes of a positive quotient: the nearest [double],
    with [ERANGE], here [None], when that is infinite, or tiny and not
    the quotient itself.  (Before version 2.41 glibc drops a bit of
    some subnormal results that have one bit more than the 53 of a
    normal one, bug 30220; this is the conversion as corrected.) *)
Definition round_quotient (num den : Z) : option spec_float :=
  let (m, e) := quotient_bits num den in
  match binary_normalize prec emax m e false with
  | S754_infinity _ | S754_nan => None
  | x => if tiny m e && negb (is_quotient x num den) then None else Some x
  end.

(** The same of [m * base ^ e] for a positive [m].  The first two
    cases are overflow and underflow decided without the power. *)
Definition round_scaled (m base e : Z) : option spec_float :=
  if 1200 <? e then None
  else if e * Z.log2 base + Z.log2 m + 1 <? - 1200 then None
  else if 0 <=? e then round_quotient (m * base ^ e) 1
  else round_quotient m (base ^ (- e)).

(** *** [std::stod]: [strtod] in the "C" locale *)

Definition tolower (c : ascii) : ascii :=
  let n := nat_of_ascii c in
  if (Nat.leb 65 n && Nat.leb n 90)%bool then ascii_of_nat (n + 32) else c.

(** What follows the prefix [p], given in lower case, of [s], the case
    of letters ignored. *)
Fixpoint after_prefix (p s : string) : option string :=
  match p, s with
  | EmptyString, _ => Some s
  | String a p', String b s' =>
      if Ascii.eqb a (tolower b) then after_prefix p' s' else None
  | String _ _, EmptyString => None
  end.

Definition hex_digit (c : ascii) : option Z :=
  match Strtol.digit c with
  | Some d => Some d
  | None =>
      let n := Z.of_nat (nat_of_ascii (tolower c)) in
      if (97 <=? n) && (n <=? 102) then Some (n - 87) else None
  end.

(** The digits at the head of [s]: their value on top of [acc], their
    number on top of [count], and what follows them. *)
Fixpoint read_digits (digit : ascii -> option Z) (base acc count : Z)
    (s : string) : Z * Z * string :=
  match s with
  | String c r =>
      match digit c with
      | Some d => read_digits digit base (acc * base + d) (count + 1) r
      | None => (acc, count, s)
      end
  | EmptyString => (acc, count, s)
  end.

(** Digits, possibly a point and more digits: the value of all the
    digits read as one number, how many there are, how many of them
    come after the point, and what follows. *)
Definition read_mantissa (digit : ascii -> option Z) (base : Z) (s : string)
  : Z * Z * Z * string :=
  let '(m1, n1, r1) := read_digits digit base 0 0 s in
  match r1 with
  | String "." r =>
      let '(m2, n2, r2) := read_digits digit base m1 0 r in
      (m2, n1 + n2, n2, r2)
  | _ => (m1, n1, 0, r1)
  end.

(** The exponent part introduced by the letter [mark]; 0 when there
    is none or when no digit follows the letter and its sign. *)
Definition read_exponent (mark : ascii) (s : string) : Z :=
  match s with
  | String c r =>
      if Ascii.eqb (tolower c) mark then
        let (minus, r') := Strtol.sign r in
        let '(x, n, _) := read_digits Strtol.digit 10 0 0 r' in
        if minus then - x else x
      else 0
  | EmptyString => 0
  end.

(** A hexadecimal number after ["0x"].  Without a hexadecimal digit
    the conversion stops behind the ["0"], which is a number. *)
Definition read_hex (s : string) : option spec_float :=
  let '(m, n, frac, r) := read_mantissa hex_digit 16 s in
  if (n =? 0) || (m =? 0) then Some (S754_zero false)
  else round_scaled m 2 (read_exponent "p" r - 4 * frac).

Definition read_decimal (s : string) : option spec_float :=
  let '(m, n, frac, r) := read_mantissa Strtol.digit 10 s in
  if n =? 0 then None
  else if m =? 0 then Some (S754_zero false)
  else round_scaled m 10 (read_exponent "e" r - frac).

(** White space, an optional sign, then ["inf"], ["nan"], a
    hexadecimal or a decimal number; what follows the longest prefix
    of that form is ignored, the caller passing no [idx].  [None]
    stands for both exceptions: [std::invalid_argument] when no
    conversion could be made, [std::out_of_range] when [strtod] sets
    [ERANGE]. *)
Definition std_stod (s : string) : option spec_float :=
  let (minus, r) := Strtol.sign (Strtol.skip_space s) in
  option_map (signed minus)
    match after_prefix "inf" r, after_prefix "nan" r, after_prefix "0x" r with
    | Some _, _, _ => Some (S754_infinity false)
    | None, Some _, _ => Some S754_nan
    | None, None, Some r' => read_hex r'
    | None, None, None => read_decimal r
    end.

(** The [double] a literal of the program text stands for. *)
Definition literal (s : string) : spec_float :=
  match std_stod s with Some x => x | None => S754_nan end.

(** What [cvttsd2si] leaves in a 64-bit register: the value with its
    fraction cut off, or the "integer indefinite" [LONG_MIN] when that
    is no [long] or [x] is not a number. *)
Definition to_long (x : spec_float) : Z :=
  match x with
  | S754_zero _ => 0
  | S754_finite minus m e =>
      let a := if 0 <=? e then Z.pos m * 2 ^ e else Z.pos m / 2 ^ (- e) in
      let v := if minus then - a else a in
      if (Limits.LONG_MIN <=? v) && (v <=? Limits.LONG_MAX) then v
      else Limits.LONG_MIN
  | S754_infinity _ | S754_nan => Limits.LONG_MIN
  end.

(** A [double] as a condition is [x != 0]: true of a NaN. *)
Definition nonzero (x : spec_float) : bool :=
  match x with S754_zero _ => false | _ => true end.

(** *** [std::hash<std::string>]: [_Hash_bytes] of libstdc++ for a
    64-bit [size_t], with the seed [0xc70f6907] *)

Definition size_t_of (z : Z) : Z := z mod 2 ^ 64.

Definition mul : Z := 0xc6a4a7935bd1e995.
Definition seed : Z := 0xc70f6907.

Definition shift_mix (v : Z) : Z := Z.lxor v (Z.shiftr v 47).

(** Bytes as the number they are in memory, the first one lowest. *)
Fixpoint load_bytes (bs : list Z) : Z :=
  match bs with
  | [] => 0
  | b :: r => b + 256 * load_bytes r
  end.

Fixpoint hash_blocks (bs : list Z) (hash : Z) : Z :=
  match bs with
  | [] => hash
  | b0 :: b1 :: b2 :: b3 :: b4 :: b5 :: b6 :: b7 :: rest =>
      let word := load_bytes [b0; b1; b2; b3; b4; b5; b6; b7] in
      let data := size_t_of (shift_mix (size_t_of (word * mul)) * mul) in
      hash_blocks rest (size_t_of (Z.lxor hash data * mul))
  | _ => size_t_of (Z.lxor hash (load_bytes bs) * mul)
  end.

Definition bytes_of (s : string) : list Z :=
  List.map (fun c => Z.of_nat (nat_of_ascii c)) (list_ascii_of_string s).

Definition Hash_bytes (s : string) : N :=
  let len := Z.of_nat (String.length s) in
  let hash := hash_blocks (bytes_of s) (Z.lxor seed (size_t_of (len * mul))) in
  let hash := size_t_of (shift_mix hash * mul) in
  Z.to_N (shift_mix hash).

(** [operator<<] of [Frame] is defined in [pyframe.cc]. *)
Definition show (f : Frame) : string :=
  file f ++ ":" ++ function f ++ ":" ++ show_size_t (line f).

(** What [FrameHash] needs of the run-time; the order of iteration
    is defined from it below.  [PACKAGE_STRING] comes from the
    [config.h] that [configure] writes: the name and the version of
    the package. *)
Definition hashing : Runtime :=
  {| double := spec_float;
     stod := std_stod;
     lit_0 := S754_zero false;
     lit_0_01 := literal "0.01";
     to_bool := nonzero;
     micros := fun x => to_long (SFmul prec emax x (of_Z 1000000));
     PACKAGE_STRING := "pystack 1.0";
     show_frame := show;
     hash_size_t := fun n => n;
     hash_string := Hash_bytes;
     iteration := fun m => m;
     ticks_per_us := 1000 |}.

(** *** [std::unordered_map]: the list of nodes of [_Hashtable]

    A range-for visits the nodes of one singly linked list.  The nodes
    of a bucket follow each other; a new node is put in front of the
    first node of its bucket, or in front of the list when the bucket
    is empty.  The table starts with one bucket, gets 13 with the
    first node and is rehashed when a node is added to as many nodes
    as there are buckets. *)

Definition entry : Type := frames_t * N.

Definition bucket_index (buckets : N) (kv : entry) : N :=
  (FrameHash (R := hashing) (fst kv) mod buckets)%N.

(** [_M_insert_bucket_begin]. *)
Fixpoint insert_bucket_begin (buckets : N) (kv : entry) (nodes : list entry)
  : option (list entry) :=
  match nodes with
  | [] => None
  | y :: r =>
      if N.eqb (bucket_index buckets y) (bucket_index buckets kv)
      then Some (kv :: nodes)
      else option_map (cons y) (insert_bucket_begin buckets kv r)
  end.

Definition insert_node (buckets : N) (nodes : list entry) (kv : entry)
  : list entry :=
  match insert_bucket_begin buckets kv nodes with
  | Some l => l
  | None => kv :: nodes
  end.

(** [_M_rehash_aux]: the nodes are taken from the front of the old
    list and put into the new table one by one. *)
Definition rehash (buckets : N) (nodes : list entry) : list entry :=
  List.fold_left (insert_node buckets) nodes [].

(** The numbers of buckets [_Prime_rehash_policy] goes through at a
    maximal load factor of 1, each the least prime of [__prime_list]
    that is twice its predecessor or more. *)
Definition bucket_counts : list N :=
  [ 13; 29; 59; 127; 257; 541; 1109; 2357; 5087; 10273; 20753; 42043;
    85229; 172933; 351061; 712697; 1447153; 2938679; 5967347; 12117689;
    24607243; 49969847; 101473717; 206062531; 418451333; 849749479;
    1725587117; 3504151727; 8589934583; 25769803693; 68719476731;
    206158430123; 412316860387; 1099511627689; 2199023255531;
    4398046511093; 13194139533241; 26388279066581; 52776558133177;
    105553116266399; 211106232532861; 562949953421231; 1125899906842597;
    4503599627370449; 18014398509481951 ]%N.

Definition next_bkt (buckets : N) : N :=
  match List.find (N.ltb buckets) bucket_counts with
  | Some n => n
  | None => buckets
  end.

(** The table, its number of buckets and its nodes, after
    [buckets.insert(it, kv)] for a new key. *)
Definition insert (table : N * list entry) (kv : entry) : N * list entry :=
  let (buckets, nodes) := table in
  let size := N.of_nat (List.length nodes) in
  if (size <? buckets)%N && negb (N.eqb buckets 1) then
    (buckets, insert_node buckets nodes kv)
  else
    let buckets := next_bkt buckets in
    (buckets, insert_node buckets (rehash buckets nodes) kv).

(** The nodes of the map whose entries [m] were inserted in this
    order. *)
Definition node_order (m : list entry) : list entry :=
  snd (List.fold_left insert m (1%N, [])).

Definition runtime : Runtime :=
  {| double := spec_float;
     stod := std_stod;
     lit_0 := S754_zero false;
     lit_0_01 := literal "0.01";
     to_bool := nonzero;
     micros := fun x => to_long (SFmul prec emax x (of_Z 1000000));
     PACKAGE_STRING := "pystack 1.0";
     show_frame := show;
     hash_size_t := fun n => n;
     hash_string := Hash_bytes;
     iteration := node_order;
     ticks_per_us := 1000 |}.

(** *** Some targets *)

Definition A : Frame := mk_frame "app.py" "main" 10.
Definition B : Frame := mk_frame "app.py" "serve" 42.
Definition C : Frame := mk_frame "lib.py" "read" 7.

(** A target that always shows the stack [A;B;C] (innermost [C]); no
    call fails, and [step] ticks pass from one clock reading to the
    next. *)
Definition steady (step : Z) : World :=
  {| attach_throws := fun _ => None;
     detach_throws := fun _ => None;
     thread_state := inr 4096;
     walk := fun _ => inr [C; B; A];
     clock := fun k => Z.of_nat k * step |}.

(** The same, with the walks given one by one. *)
Definition scripted (step : Z) (walks : list (exn + frames_t)) : World :=
  {| attach_throws := fun _ => None;
     detach_throws := fun _ => None;
     thread_state := inr 4096;
     walk := fun k => List.nth k walks (inr [C; B; A]);
     clock := fun k => Z.of_nat k * step |}.

(** Every clock reading comes 10 ms after the one before: a capture
    takes that long and a sleep no longer than asked for. *)
Definition every_10ms : World := steady 10000000.

(** The three walks of the run give the empty stack and two other
    stacks. *)
Definition with_empty_stack : World :=
  scripted 10000000 [inr []; inr [A]; inr [C]].

(** A stack, a capture that fails, the empty stack. *)
Definition spoiled_and_empty : World :=
  scripted 10000000
    [inr [A]; inl (NonFatalException "no frame"); inr []].

(** The target cannot be traced: the first attach fails. *)
Definition no_such_process : World :=
  {| attach_throws := fun _ => Some (FatalException "Failed to attach");
     detach_throws := fun _ => None;
     thread_state := inr 4096;
     walk := fun _ => inr [C; B; A];
     clock := fun k => Z.of_nat k * 10000000 |}.

(** The second attach of the sampling loop throws a
    [NonFatalException]. *)
Definition lost_on_reattach : World :=
  {| attach_throws :=
       fun k => if Nat.eqb k 1 then Some (NonFatalException "gone") else None;
     detach_throws := fun _ => None;
     thread_state := inr 4096;
     walk := fun _ => inr [C; B; A];
     clock := fun k => Z.of_nat k * 10000000 |}.
End Sample.

(** * The vocabulary of the properties *)

Section Vocabulary.
Context {R : Runtime}.
Variable w : World.

(** [argv] has the single operand [p]: the process id. *)
Definition names_target (argv : list string) (p : string) : Prop :=
  match argv with
  | [] => False
  | _ :: args =>
      Getopt.operands (Getopt.scan optstring long_options args) = [p]
  end.

(** A computation adds to the log and takes nothing from it. *)
Definition grows {A} (m : M A) : Prop :=
  forall st, exists new, log (snd (m st)) = (new ++ log st)%list.

(** The bucket map and the empty count once the [m] walks from the
    [k]-th on have been counted, as long as none of them leaves the
    loop: a stack goes to its bucket, an exception to [empty]. *)
Fixpoint tally (k m : nat) (b : buckets_t) (e : N) : buckets_t * N :=
  match m with
  | O => (b, e)
  | S m' =>
      match walk w k with
      | inr frames => tally (S k) m' (count_sample frames b) e
      | inl _ => tally (S k) m' b (Limits.size_t_incr e)
      end
  end.

(** The walk ends the capture but not the loop. *)
Definition absorbed (k : nat) : Prop :=
  match walk w k with
  | inr _ | inl (NonFatalException _) => True
  | inl _ => False
  end.

(** Line 135 at the [j]-th clock reading. *)
Definition leaves (interval deadline : Z) (j : nat) : Prop :=
  plus_micros (clock w j) interval >= deadline.

(** What a loop that ends by [break] has done: [S m] captures. *)
Record completed (interval deadline : Z) (b : buckets_t) (e : N) (st : state)
    (be : buckets_t * N) (st1 : state) (m : nat) : Prop :=
  { c_walks : walks st1 = (walks st + S m)%nat;
    c_readings : readings st1 = (readings st + S m)%nat;
    c_attaches : attaches st1 = (attaches st + m)%nat;
    c_detaches : detaches st1 = (detaches st + m)%nat;
    c_tally : be = tally (walks st) (S m) b e;
    c_absorbed : forall i, (i <= m)%nat -> absorbed (walks st + i);
    c_goes_on :
      forall i, (i < m)%nat -> ~ leaves interval deadline (readings st + i);
    c_leaves : leaves interval deadline (readings st + m);
    c_cout : cout st1 = cout st;
    c_cerr : cerr st1 = cerr st }.

(** The folded-stack encoding of one bucket: the frames from the
    outermost to the innermost joined by [';'], a space, the count. *)
Definition folded (kv : frames_t * N) : string :=
  String.concat ";" (List.map show_frame (List.rev (fst kv)))
    ++ " " ++ show_size_t (snd kv) ++ endl.

(** One folded line for each bucket of [kvs], in that order. *)
Fixpoint lines (kvs : list (frames_t * N)) : string :=
  match kvs with
  | [] => ""
  | kv :: r => folded kv ++ lines r
  end.

(** The line for the captures without a stack, if there are any. *)
Definition null_line (empty : N) : string :=
  if N.eqb empty 0 then "" else "(null) " ++ show_size_t empty ++ endl.

(** The stack of the bucket is empty. *)
Definition empty_key (kv : frames_t * N) : bool :=
  match fst kv with [] => true | _ :: _ => false end.

(** The buckets in front of the first one with an empty key. *)
Fixpoint until_empty_key (kvs : list (frames_t * N))
  : list (frames_t * N) :=
  match kvs with
  | [] => []
  | kv :: r => if empty_key kv then [] else kv :: until_empty_key r
  end.

(** Some bucket of [kvs] is that of the empty stack. *)
Definition has_empty_key (kvs : list (frames_t * N)) : bool :=
  List.existsb empty_key kvs.

(** [st] after [o] went to [std::cout] and [e] to [std::cerr]. *)
Definition written (st : state) (o e : string) : state :=
  mk_state (log st) (attaches st) (detaches st) (walks st) (readings st)
    (cout st ++ o) (cerr st ++ e).

(** What [RunOnce] prints: one frame a line. *)
Fixpoint text (fs : list Frame) : string :=
  match fs with
  | [] => ""
  | f :: r => show_frame f ++ endl ++ text r
  end.

(** Where the loop starts in a run that got there: after the first
    attach, [ThreadStateAddr] and the clock reading for [end]. *)
Definition loop_start (pid : Z) : state :=
  mk_state [Now; Locate pid None; Attach pid None] 1 0 0 1 "" "".

(** The run is a sampling run whose loop ends by [break], with
    the bucket map and the empty count [be], in state [st1]. *)
Definition sampled (fuel : nat) (argv : list string)
    (seconds rate : double) (be : buckets_t * N) (st1 : state) : Prop :=
  option_loop (getopt_rets argv) lit_0 lit_0_01 = Break seconds rate
  /\ to_bool seconds = true
  /\ exists p addr,
      names_target argv p
      /\ Limits.PID_MIN <= Strtol.strtol p <= Limits.PID_MAX
      /\ attach_throws w 0 = None
      /\ thread_state w = inr addr
      /\ sample_loop w fuel (Strtol.strtol p) addr (micros rate)
           (plus_micros (clock w 0) (micros seconds)) [] 0%N
           (loop_start (Strtol.strtol p))
         = (Ret be, st1).

(** The sum of all bucket counts. *)
Fixpoint total (b : buckets_t) : N :=
  match b with
  | [] => 0%N
  | (_, n) :: r => (n + total r)%N
  end.

(** How many of the [m] walks from the [k]-th on threw a
    [NonFatalException]. *)
Fixpoint non_fatal_walks (k m : nat) : N :=
  match m with
  | O => 0%N
  | S m' =>
      (match walk w k with
       | inl (NonFatalException _) => 1
       | _ => 0
       end + non_fatal_walks (S k) m')%N
  end.

(** The value fits a [long]. *)
Definition in_long (z : Z) : Prop :=
  Limits.LONG_MIN <= z <= Limits.LONG_MAX.

(** No product or sum of lines 119-121 and 135 leaves the range of
    [long] in the first [upto] rounds of the loop: [D] and [I] are the
    duration and the interval in microseconds, the clock reading 0 is
    the one [end] is computed from and the reading [k] the one of
    round [k]. *)
Definition no_overflow (D I : Z) (upto : nat) : Prop :=
  in_long (ticks_per_us * D)
  /\ in_long (clock w 0 + ticks_per_us * D)
  /\ in_long (ticks_per_us * I)
  /\ forall k, (1 <= k <= upto)%nat ->
                in_long (clock w k + ticks_per_us * I).

(** Up to round [upto] the clock does not run backwards and no
    [sleep_for(interval)] returns early. *)
Definition sleeps_at_least (interval : Z) (upto : nat) : Prop :=
  clock w 0 <= clock w 1
  /\ forall k, (1 <= k < upto)%nat ->
                clock w k + ticks_per_us * interval <= clock w (S k).

(** Up to round [upto] a capture takes at most [c] microseconds and
    the rest of a round, the sleep with the detach before and the
    attach after it, at most [interval]. *)
Definition rounds_take_at_most (interval c : Z) (upto : nat) : Prop :=
  clock w 1 <= clock w 0 + ticks_per_us * c
  /\ forall k, (1 <= k < upto)%nat ->
                clock w (S k) <= clock w k + ticks_per_us * (interval + c).

(** The quotient rounded up, for a positive divisor. *)
Definition ceil_div (a b : Z) : Z := (a + b - 1) / b.

(** The exception an event of the log ended with. *)
Definition thrown (ev : event) : option exn :=
  match ev with
  | Attach _ t | Detach _ t | Locate _ t | Walk _ _ t => t
  | Now | Sleep _ => None
  end.

(** Some call of the log threw [e]. *)
Definition raised (e : exn) (l : list event) : Prop :=
  List.In (Some e) (List.map thrown l).

(** The latest [PtraceAttach] or [PtraceDetach] of a log. *)
Fixpoint latest_ptrace (l : list event) : option event :=
  match l with
  | [] => None
  | Attach pid t :: _ => Some (Attach pid t)
  | Detach pid t :: _ => Some (Detach pid t)
  | _ :: older => latest_ptrace older
  end.

(** The latest of these calls is a [PtraceAttach]. *)
Definition holding (l : list event) : bool :=
  match latest_ptrace l with
  | Some (Attach _ _) => true
  | _ => false
  end.

(** Attach and detach calls take turns, an attach first. *)
Fixpoint alternating (l : list event) : bool :=
  match l with
  | [] => true
  | Attach _ _ :: older => negb (holding older) && alternating older
  | Detach _ _ :: older => holding older && alternating older
  | _ :: older => alternating older
  end.

(** The latest of these calls is a [PtraceAttach] that succeeded: the
    target is attached and no [PtraceDetach] has been called since. *)
Definition left_attached (l : list event) : bool :=
  match latest_ptrace l with
  | Some (Attach _ None) => true
  | _ => false
  end.

(** The state of the tracing when a computation is over: the target
    is attached, unless the computation ended with the exception of
    a [PtraceAttach] or [PtraceDetach]. *)
Definition traced {A} (pid : Z) (r : outcome A) (l : list event) : Prop :=
  alternating l = true
  /\ (latest_ptrace l = Some (Attach pid None)
      \/ exists e k,
           r = Throw e
           /\ (latest_ptrace l = Some (Attach pid (Some e))
                  /\ attach_throws w k = Some e
               \/ latest_ptrace l = Some (Detach pid (Some e))
                  /\ detach_throws w k = Some e)).

End Vocabulary.

(** * More vocabulary: the whole of the driver *)

Section Coverage.
Context {R : Runtime}.
Variable w : World.

(** The ways through the [try] block of [main], each with the outcome
    and the state it ends in. *)
Inductive try_path (fuel : nat) (pid : Z) (seconds rate : double)
  : outcome Z -> state -> Prop :=
| attach_fails (e : exn) :
    attach_throws w 0 = Some e ->
    try_path fuel pid seconds rate (Throw e)
      (mk_state [Attach pid (Some e)] 1 0 0 0 "" "")
| locate_fails (e : exn) :
    attach_throws w 0 = None ->
    thread_state w = inl e ->
    try_path fuel pid seconds rate (Throw e)
      (mk_state [Locate pid (Some e); Attach pid None] 1 0 0 0 "" "")
| single_walk_fails (addr : Z) (e : exn) :
    attach_throws w 0 = None ->
    thread_state w = inr addr ->
    to_bool seconds = false ->
    walk w 0 = inl e ->
    try_path fuel pid seconds rate (Throw e)
      (mk_state [Walk pid addr (Some e); Locate pid None; Attach pid None]
         1 0 1 0 "" "")
| single_shot (addr : Z) (stack : frames_t) :
    attach_throws w 0 = None ->
    thread_state w = inr addr ->
    to_bool seconds = false ->
    walk w 0 = inr stack ->
    try_path fuel pid seconds rate (Ret 0)
      (mk_state [Walk pid addr None; Locate pid None; Attach pid None]
         1 0 1 0 (text (List.rev stack)) "")
| loop_breaks (addr : Z) (be : buckets_t * N) (st1 : state) :
    attach_throws w 0 = None ->
    thread_state w = inr addr ->
    to_bool seconds = true ->
    sample_loop w fuel pid addr (micros rate)
      (plus_micros (clock w 0) (micros seconds)) [] 0%N (loop_start pid)
    = (Ret be, st1) ->
    try_path fuel pid seconds rate
      (Ret (if has_empty_key (iteration (fst be)) then 1 else 0))
      (written st1
         (null_line (snd be) ++ lines (until_empty_key (iteration (fst be))))
         (if has_empty_key (iteration (fst be)) then "uh oh" ++ endl else ""))
| loop_throws (addr : Z) (e : exn) (st1 : state) :
    attach_throws w 0 = None ->
    thread_state w = inr addr ->
    to_bool seconds = true ->
    sample_loop w fuel pid addr (micros rate)
      (plus_micros (clock w 0) (micros seconds)) [] 0%N (loop_start pid)
    = (Throw e, st1) ->
    try_path fuel pid seconds rate (Throw e) st1
| loop_unfinished (addr : Z) (st1 : state) :
    attach_throws w 0 = None ->
    thread_state w = inr addr ->
    to_bool seconds = true ->
    sample_loop w fuel pid addr (micros rate)
      (plus_micros (clock w 0) (micros seconds)) [] 0%N (loop_start pid)
    = (Fuel, st1) ->
    try_path fuel pid seconds rate Fuel st1.

(** An event that does not end the loop: a call that returned, or a
    walk that threw a [NonFatalException]. *)
Definition quiet (ev : event) : bool :=
  match ev with
  | Walk _ _ (Some (NonFatalException _)) => true
  | _ => match thrown ev with None => true | Some _ => false end
  end.

(** The event is a walk. *)
Definition is_walk (ev : event) : bool :=
  match ev with Walk _ _ _ => true | _ => false end.

(** The latest [PtraceAttach] or [PtraceDetach] of the log is a detach
    that succeeded. *)
Definition released (l : list event) : bool :=
  match latest_ptrace l with
  | Some (Detach _ None) => true
  | _ => false
  end.

(** Every call of the log is made for the process [pid]; the target is
    attached whenever it is looked at or detached, and released
    whenever the driver sleeps; the thread state is located once, right
    after the first attach, and each walk starts from the address
    found; each sleep lasts [interval]. *)
Fixpoint orderly (pid interval : Z) (l : list event) : Prop :=
  match l with
  | [] => True
  | ev :: older =>
      orderly pid interval older
      /\ match ev with
         | Attach p _ => p = pid
         | Detach p _ => p = pid /\ left_attached older = true
         | Locate p _ => p = pid /\ older = [Attach pid None]
         | Walk p a _ =>
             p = pid /\ left_attached older = true
             /\ thread_state w = inr a
         | Now => True
         | Sleep us => us = interval /\ released older = true
         end
  end.

(** The part of [FrameHash] that comes from the file names, and the
    part that comes from the positions [i], [i + 1], ... *)
Fixpoint names_hash (names : list string) : N :=
  match names with
  | [] => 0%N
  | f :: r => N.lxor (hash_string f) (names_hash r)
  end.

Fixpoint positions_hash (i : N) (n : nat) : N :=
  match n with
  | O => 0%N
  | S n' => N.lxor (hash_size_t i) (positions_hash (i + 1) n')
  end.

(** How many of the [m] walks from the [k]-th on returned the stack
    [key]. *)
Fixpoint occurrences (k m : nat) (key : frames_t) : N :=
  match m with
  | O => 0%N
  | S m' =>
      (match walk w k with
       | inr frames => if frames_eqb frames key then 1 else 0
       | inl _ => 0
       end + occurrences (S k) m' key)%N
  end.

(** The count the map holds for [key], 0 without an entry. *)
Definition count_of (key : frames_t) (b : buckets_t) : N :=
  match find key b with
  | None => 0%N
  | Some c => c
  end.

(** The exit code of a handler. *)
Definition exit_code (e : exn) : Z :=
  match e with
  | NonFatalException _ => 0
  | FatalException _ | std_exception _ => 1
  end.

(** An option value the [switch] has a [case] for. *)
Definition has_case (c : ascii) : bool :=
  Ascii.eqb c "000" || Ascii.eqb c "h" || Ascii.eqb c "r"
  || Ascii.eqb c "s" || Ascii.eqb c "v" || Ascii.eqb c "?".
End Coverage.
(** * Properties *)

(** ** Command line *)

Section CommandLine.
Context {R : Runtime}.

Lemma scan_accounts_for_all (args : list string) :
  (List.length (Getopt.taken (Getopt.scan optstring long_options args))
   + List.length (Getopt.operands (Getopt.scan optstring long_options args))
   = List.length args)%nat.
Proof.
  assert (H : forall n args, (List.length args <= n)%nat ->
    (List.length (Getopt.taken (Getopt.scan optstring long_options args))
     + List.length
         (Getopt.operands (Getopt.scan optstring long_options args))
     = List.length args)%nat).
  { clear args. induction n as [|n IH]; intros args Hn.
    - destruct args; [reflexivity | cbn in Hn; lia].
    - destruct args as [|a rest]; [reflexivity|].
      cbn [List.length] in Hn.
      assert (Hrest := IH rest ltac:(lia)).
      cbn [Getopt.scan].
      destruct (Getopt.classify a).
      + cbn. reflexivity.
      + destruct rest as [|b rest']; [reflexivity|].
        assert (Hrest' := IH rest' ltac:(cbn [List.length] in Hn; lia)).
        destruct (Getopt.scan_long long_options s (Some b)) as [r used].
        destruct used;
          cbn [Getopt.more Getopt.taken Getopt.operands List.app
                 List.length] in *; lia.
      + destruct rest as [|b rest'].
        { reflexivity. }
        assert (Hrest' := IH rest' ltac:(cbn [List.length] in Hn; lia)).
        destruct (Getopt.scan_short optstring s (Some b)) as [rs used].
        destruct used;
          cbn [Getopt.more Getopt.taken Getopt.operands List.app
                 List.length] in *; lia.
      + cbn [Getopt.taken Getopt.operands List.length]. lia. }
  apply (H (List.length args)). lia.
Qed.

(** With a single operand [p] the test of line 101 passes and
    [argv[argc - 1]] is [p]. *)
Lemma single_operand (prog : string) (args : list string) (p : string) :
  Getopt.operands (Getopt.scan optstring long_options args) = [p] ->
  optind (prog :: args) = Z.of_nat (List.length (prog :: args)) - 1
  /\ last_arg (prog :: args) = p.
Proof.
  intros Hp.
  pose proof (scan_accounts_for_all args) as Hlen.
  rewrite Hp in Hlen. cbn [List.length] in Hlen.
  unfold optind, last_arg, Getopt.final_optind, Getopt.permuted.
  cbn [List.tl List.length]. split; [lia|].
  replace (Z.to_nat (Z.of_nat (S (List.length args)) - 1))
    with (S (List.length (Getopt.taken
               (Getopt.scan optstring long_options args)))) by lia.
  cbn [List.nth]. rewrite Hp.
  rewrite List.app_nth2 by lia. rewrite Nat.sub_diag. reflexivity.
Qed.

(** Options handled one after the other. *)
Lemma option_loop_app (before rest : list Getopt.ret) (s r : double) :
  option_loop (before ++ rest) s r =
  match option_loop before s r with
  | Break s' r' => option_loop rest s' r'
  | left_early => left_early
  end.
Proof.
  revert s r. induction before as [|x before IH]; intros s r;
    [reflexivity|].
  cbn [List.app option_loop].
  repeat match goal with
         | |- context [if ?b then _ else _] => destruct b
         | |- context [match stod ?a with _ => _ end] => destruct (stod a)
         end; auto.
Qed.

Variable w : World.

Lemma main_out_of_range (fuel : nat) (argv : list string)
    (seconds rate : double) (p : string) :
  option_loop (getopt_rets argv) lit_0 lit_0_01 = Break seconds rate ->
  names_target argv p ->
  (Strtol.strtol p >? Limits.PID_MAX) || (Strtol.strtol p <? Limits.PID_MIN)
    = true ->
  main w fuel argv =
  mk_run (Exit 1)
    (snd (put_cerr ("PID " ++ show_long (Strtol.strtol p)
                      ++ " is out of valid PID range." ++ endl) start)).
Proof.
  intros Hopt Hp Hrange. destruct argv as [|prog args]; [contradiction|].
  destruct (single_operand prog args p Hp) as [Hind Hlast].
  unfold main. rewrite Hopt, Hind, Z.eqb_refl, Hlast, Hrange. reflexivity.
Qed.

Lemma main_in_range (fuel : nat) (argv : list string)
    (seconds rate : double) (p : string) :
  option_loop (getopt_rets argv) lit_0 lit_0_01 = Break seconds rate ->
  names_target argv p ->
  Limits.PID_MIN <= Strtol.strtol p <= Limits.PID_MAX ->
  main w fuel argv =
  handlers (try_block w fuel (Strtol.strtol p) seconds rate start).
Proof.
  intros Hopt Hp Hrange. destruct argv as [|prog args]; [contradiction|].
  destruct (single_operand prog args p Hp) as [Hind Hlast].
  unfold main. rewrite Hopt, Hind, Z.eqb_refl, Hlast.
  replace (_ || _) with false; [reflexivity|].
  symmetry. apply orb_false_iff. split; lia.
Qed.

Lemma non_numeric_strtol (p : string) :
  Strtol.non_numeric p = true -> Strtol.strtol p = 0.
Proof.
  unfold Strtol.non_numeric, Strtol.strtol.
  destruct (Strtol.sign (Strtol.skip_space p)) as [minus r]. cbn [snd].
  intros Hn.
  assert (H : Strtol.digits 0 r = 0).
  { destruct r as [|c r]; [reflexivity|]. cbn in *.
    destruct (Strtol.digit c); [discriminate | reflexivity]. }
  rewrite H. destruct minus; reflexivity.
Qed.
End CommandLine.

(** ** The log only grows *)

Create HintDb grows.

Section Growth.
Context {R : Runtime}.
Variable w : World.

Lemma grows_ret {A} (a : A) : grows (ret a).
Proof. intros st. exists []. reflexivity. Qed.

Lemma grows_bind {A B} (m : M A) (k : A -> M B) :
  grows m -> (forall a, grows (k a)) -> grows (bind m k).
Proof.
  intros Hm Hk st. unfold bind. destruct (Hm st) as [n1 H1].
  destruct (m st) as [[a|e|] st1]; cbn [snd] in *; eauto.
  destruct (Hk a st1) as [n2 H2]. exists (n2 ++ n1)%list.
  rewrite H2, H1. apply List.app_assoc.
Qed.

Lemma grows_catch {A} (m h : M A) :
  grows m -> grows h -> grows (catch_non_fatal m h).
Proof.
  intros Hm Hh st. unfold catch_non_fatal. destruct (Hm st) as [n1 H1].
  destruct (m st) as [[a|[]|] st1]; cbn [snd] in *; eauto.
  destruct (Hh st1) as [n2 H2]. exists (n2 ++ n1)%list.
  rewrite H2, H1. apply List.app_assoc.
Qed.

Lemma grows_call {A} (m : M A) (ev : state -> event) :
  (forall st, log (snd (m st)) = ev st :: log st) -> grows m.
Proof. intros H st. exists [ev st]. rewrite H. reflexivity. Qed.

Lemma grows_put {A} (m : M A) :
  (forall st, log (snd (m st)) = log st) -> grows m.
Proof. intros H st. exists []. rewrite H. reflexivity. Qed.

#[local] Hint Resolve grows_ret grows_bind grows_catch : grows.

Lemma grows_calls :
  (forall pid, grows (PtraceAttach w pid))
  /\ (forall pid, grows (PtraceDetach w pid))
  /\ (forall pid, grows (ThreadStateAddr w pid))
  /\ (forall pid addr, grows (GetStack w pid addr))
  /\ grows (system_clock_now w)
  /\ (forall us, grows (sleep_for us))
  /\ (forall s, grows (put_cout s))
  /\ (forall s, grows (put_cerr s)).
Proof.
  repeat split; intros;
    first [ eapply grows_put; reflexivity
          | eapply grows_call; intros; cbn; reflexivity ].
Qed.

Lemma grows_put_lines (fs : list Frame) : grows (put_lines fs).
Proof.
  induction fs; cbn [put_lines]; auto with grows.
  apply grows_bind; auto. apply grows_calls.
Qed.

Lemma grows_print_buckets (kvs : list (frames_t * N)) :
  grows (print_buckets kvs).
Proof.
  induction kvs as [|[[|f k] n] r IH]; cbn [print_buckets];
    auto with grows; apply grows_bind; auto with grows; apply grows_calls.
Qed.

Lemma grows_sample_loop (fuel : nat) (pid addr interval deadline : Z)
    (b : buckets_t) (e : N) :
  grows (sample_loop w fuel pid addr interval deadline b e).
Proof.
  revert b e. induction fuel as [|fuel IH]; intros b e; cbn [sample_loop].
  - intros st. exists []. reflexivity.
  - apply grows_bind.
    + apply grows_catch; auto with grows.
      apply grows_bind; auto with grows. apply grows_calls.
    + intros be. apply grows_bind; [apply grows_calls|]. intros now.
      destruct (_ >=? _); auto with grows.
      repeat (apply grows_bind; [apply grows_calls|]; intros _).
      apply IH.
Qed.

Lemma grows_try_block (fuel : nat) (pid : Z) (seconds rate : double) :
  grows (addr <- ThreadStateAddr w pid ;;
         if to_bool seconds then sampling w fuel pid addr seconds rate
         else RunOnce w pid addr ;; ret 0).
Proof.
  apply grows_bind; [apply grows_calls|]. intros a.
  destruct (to_bool seconds).
  - unfold sampling. apply grows_bind; [apply grows_calls|]. intros t0.
    apply grows_bind; [apply grows_sample_loop|]. intros be.
    apply grows_bind; [|intros; apply grows_print_buckets].
    unfold print_empty. destruct (N.eqb _ _); auto with grows.
    apply grows_calls.
  - apply grows_bind; auto with grows. unfold RunOnce.
    apply grows_bind; [apply grows_calls|]. intros. apply grows_put_lines.
Qed.

Lemma handlers_log (r : outcome Z * state) :
  log (final (handlers r)) = log (snd r).
Proof. destruct r as [[c|[]|] st]; reflexivity. Qed.

(** The first call of the [try] block is [PtraceAttach(pid)]. *)
Lemma try_block_first_call (fuel : nat) (pid : Z) (seconds rate : double) :
  exists later,
    List.rev (log (snd (try_block w fuel pid seconds rate start)))
    = Attach pid (attach_throws w 0) :: later.
Proof.
  unfold try_block. unfold bind at 1. cbn [PtraceAttach start attaches log].
  destruct (attach_throws w 0) as [e|]; cbn [raise_if].
  - exists []. reflexivity.
  - match goal with
    | |- context [bind ?m ?k ?st] =>
        destruct (grows_try_block fuel pid seconds rate st) as [new Hn]
    end.
    cbn [log] in Hn. exists (List.rev new).
    etransitivity; [apply f_equal; exact Hn|].
    rewrite List.rev_app_distr. reflexivity.
Qed.
End Growth.

(** ** The process id on the command line *)

Section ProcessId.
Context {R : Runtime}.
Variable w : World.

(** Without options the duration is the literal 0 and the run a
    single-shot one. *)
Lemma single_shot_by_default {OK : RuntimeOk R} (fuel : nat)
    (prog p : string) :
  Getopt.classify p = Getopt.Operand ->
  Limits.PID_MIN <= Strtol.strtol p <= Limits.PID_MAX ->
  main w fuel [prog; p] =
  handlers ((PtraceAttach w (Strtol.strtol p) ;;
             addr <- ThreadStateAddr w (Strtol.strtol p) ;;
             RunOnce w (Strtol.strtol p) addr ;; ret 0) start).
Proof.
  intros Hp Hrange.
  assert (Hscan : Getopt.scan optstring long_options [p]
                  = Getopt.mk_scanned [] [] [p]).
  { cbn [Getopt.scan]. rewrite Hp. reflexivity. }
  rewrite (main_in_range w fuel [prog; p] lit_0 lit_0_01 p).
  - unfold try_block. rewrite to_bool_0. reflexivity.
  - unfold getopt_rets. cbn [List.tl]. rewrite Hscan. reflexivity.
  - cbn [names_target]. rewrite Hscan. reflexivity.
  - exact Hrange.
Qed.

(** C7.  When the option loop is left by [break], the command line
    has the single operand [p] and [strtol] gives a value outside the
    range of [pid_t] for it, the driver writes the diagnostic naming
    that value to [std::cerr], returns 1, and calls nothing: no attach
    is attempted. *)
Theorem pid_out_of_range (fuel : nat) (argv : list string)
    (seconds rate : double) (p : string) :
  option_loop (getopt_rets argv) lit_0 lit_0_01 = Break seconds rate ->
  names_target argv p ->
  Strtol.strtol p > Limits.PID_MAX \/ Strtol.strtol p < Limits.PID_MIN ->
  let r := main w fuel argv in
  ending r = Exit 1
  /\ cerr (final r) = "PID " ++ show_long (Strtol.strtol p)
                       ++ " is out of valid PID range." ++ endl
  /\ cout (final r) = ""
  /\ log (final r) = [].
Proof.
  intros Hopt Hp Hrange. cbv zeta.
  rewrite (main_out_of_range w fuel argv seconds rate p Hopt Hp).
  - repeat split.
  - apply orb_true_iff. destruct Hrange; [left | right]; lia.
Qed.

(** C9.  An operand without any digit is read as 0 by [strtol]; the
    driver has no test for that, so the run is the run for process id
    0 and its first call is [PtraceAttach(0)]. *)
Theorem non_numeric_pid_attaches_0 (fuel : nat) (argv : list string)
    (seconds rate : double) (p : string) :
  option_loop (getopt_rets argv) lit_0 lit_0_01 = Break seconds rate ->
  names_target argv p ->
  Strtol.non_numeric p = true ->
  Strtol.strtol p = 0
  /\ main w fuel argv = handlers (try_block w fuel 0 seconds rate start)
  /\ exists later,
       List.rev (log (final (main w fuel argv)))
       = Attach 0 (attach_throws w 0) :: later.
Proof.
  intros Hopt Hp Hnum.
  pose proof (non_numeric_strtol p Hnum) as H0.
  assert (Hmain : main w fuel argv
                  = handlers (try_block w fuel 0 seconds rate start)).
  { rewrite <- H0. apply (main_in_range w fuel argv seconds rate p); auto.
    rewrite H0. unfold Limits.PID_MIN, Limits.PID_MAX. lia. }
  repeat split; auto.
  rewrite Hmain, handlers_log. apply try_block_first_call.
Qed.

(** C10, amended.  ['j'] is an option character of the option string
    without a [case] of its own: once [getopt_long] returns it, the options
    before it having left the loop running, the driver calls
    [abort()]; nothing has been written or called by then. *)
Theorem j_option_aborts (fuel : nat) (argv : list string)
    (before after : list Getopt.ret) (j : Getopt.ret)
    (seconds rate : double) :
  getopt_rets argv = (before ++ j :: after)%list ->
  Getopt.c j = "j"%char ->
  option_loop before lit_0 lit_0_01 = Break seconds rate ->
  Getopt.short_lookup "j" optstring = Some Getopt.no_argument
  /\ main w fuel argv = mk_run Aborted start.
Proof.
  intros Hrets Hj Hbefore. split; [reflexivity|].
  unfold main. rewrite Hrets, option_loop_app, Hbefore.
  cbn [option_loop]. rewrite Hj. reflexivity.
Qed.
End ProcessId.


(** ** Hashing and looking up stacks *)

Section Buckets.
Context {R : Runtime}.

Lemma frame_eqb_eq (a b : Frame) : frame_eqb a b = true <-> a = b.
Proof.
  unfold frame_eqb. rewrite !andb_true_iff, !String.eqb_eq, N.eqb_eq.
  destruct a, b; cbn. split.
  - intros [[-> ->] ->]. reflexivity.
  - intros H. injection H as -> -> ->. auto.
Qed.

Lemma frames_eqb_eq (a b : frames_t) : frames_eqb a b = true <-> a = b.
Proof.
  revert b. induction a as [|x a IH]; intros [|y b]; cbn;
    try (split; [discriminate | discriminate]); [tauto|].
  rewrite andb_true_iff, frame_eqb_eq, IH. split.
  - intros [-> ->]. reflexivity.
  - intros H. injection H as -> ->. auto.
Qed.

Lemma FrameHash_loop_files (a b : frames_t) (i hash : N) :
  List.map file a = List.map file b ->
  FrameHash_loop i a hash = FrameHash_loop i b hash.
Proof.
  revert b i hash. induction a as [|x a IH]; intros [|y b] i hash H;
    try discriminate; [reflexivity|].
  cbn in H. injection H as Hx Hrest. cbn. rewrite Hx. apply IH, Hrest.
Qed.

(** The test [find] makes is equality of the keys: the hash values
    of equal keys are equal. *)
Lemma same_key_eq (k k' : frames_t) : same_key k k' = true <-> k' = k.
Proof.
  unfold same_key. rewrite andb_true_iff, frames_eqb_eq, N.eqb_eq. split.
  - tauto.
  - intros ->. auto.
Qed.

Lemma find_some (frames : frames_t) (buckets : buckets_t) (n : N) :
  find frames buckets = Some n -> List.In (frames, n) buckets.
Proof.
  induction buckets as [|[k c] r IH]; cbn; [discriminate|].
  destruct (same_key frames k) eqn:E.
  - apply same_key_eq in E. subst k. intros [= ->]. auto.
  - auto.
Qed.

Lemma find_none (frames : frames_t) (buckets : buckets_t) :
  find frames buckets = None -> forall n, ~ List.In (frames, n) buckets.
Proof.
  induction buckets as [|[k c] r IH]; cbn; [tauto|].
  destruct (same_key frames k) eqn:E; [discriminate|].
  intros Hr n [[= -> ->]|Hin].
  - assert (same_key frames frames = true) by (apply same_key_eq; auto).
    congruence.
  - exact (IH Hr n Hin).
Qed.

(** C8.  [FrameHash] reads the position and the file name of each
    frame and nothing else: two stacks with the same file names at the
    same positions have the same hash value.  Whether a stack has an
    entry in the bucket map is nevertheless a matter of equality of
    all three fields of all frames: a key matches only the stack equal
    to it, and [find] gives an entry of the map exactly when the stack
    itself is a key. *)
Theorem FrameHash_reads_files_only (a b : frames_t) :
  List.map file a = List.map file b ->
  FrameHash a = FrameHash b
  /\ (same_key a b = true <-> b = a)
  /\ (forall buckets n, find a buckets = Some n -> List.In (a, n) buckets)
  /\ (forall buckets, find a buckets = None ->
                      forall n, ~ List.In (a, n) buckets).
Proof.
  intros H. repeat split.
  - apply FrameHash_loop_files, H.
  - apply same_key_eq.
  - apply same_key_eq.
  - apply find_some.
  - apply find_none.
Qed.
End Buckets.

(** ** The sampling loop *)

Lemma append_nil_r (s : string) : s ++ "" = s.
Proof. induction s; cbn; congruence. Qed.

Lemma append_assoc (a b c : string) : (a ++ b) ++ c = a ++ b ++ c.
Proof. induction a; cbn; congruence. Qed.

Section Loop.
Context {R : Runtime}.
Variable w : World.

Variables pid addr interval deadline : Z.

Lemma sample_loop_ret (fuel : nat) :
  forall b e st be st1,
    sample_loop w fuel pid addr interval deadline b e st = (Ret be, st1) ->
    exists m, completed w interval deadline b e st be st1 m.
Proof.
  induction fuel as [|fuel IH]; intros b e st be st1 H; [discriminate|].
  cbn [sample_loop] in H.
  unfold bind at 1 in H. unfold catch_non_fatal, bind at 1 in H.
  unfold GetStack at 1 in H. cbv zeta in H.
  assert (Hstep : forall be0 st0,
    walks st0 = S (walks st) -> readings st0 = readings st ->
    attaches st0 = attaches st -> detaches st0 = detaches st ->
    cout st0 = cout st -> cerr st0 = cerr st ->
    absorbed w (walks st) ->
    tally w (walks st) 1 b e = be0 ->
    (now <- system_clock_now w ;;
     if plus_micros now interval >=? deadline then ret be0
     else PtraceDetach w pid ;; sleep_for interval ;; PtraceAttach w pid ;;
          sample_loop w fuel pid addr interval deadline (fst be0) (snd be0))
      st0 = (Ret be, st1) ->
    exists m, completed w interval deadline b e st be st1 m).
  { clear H. intros be0 st0 Hw Hr Ha Hd Hco Hce Habs Hbe0 H.
    unfold bind at 1 in H. unfold system_clock_now at 1 in H.
    destruct (plus_micros (clock w (readings st0)) interval >=? deadline)
      eqn:Hbreak.
    - injection H as <- <-. exists 0%nat.
      constructor; cbn [walks readings attaches detaches cout cerr];
        rewrite ?Nat.add_0_r, ?Nat.add_1_r; auto.
      + intros i Hi. replace i with 0%nat by lia.
        rewrite Nat.add_0_r. exact Habs.
      + intros i Hi. lia.
      + unfold leaves. rewrite <- Hr. lia.
    - unfold bind at 1, PtraceDetach at 1 in H. cbv zeta in H.
      cbn [detaches] in H.
      destruct (detach_throws w (detaches st0)); [discriminate|].
      cbn [raise_if] in H.
      unfold bind at 1, sleep_for at 1 in H.
      unfold bind at 1, PtraceAttach at 1 in H. cbv zeta in H.
      cbn [attaches] in H.
      destruct (attach_throws w (attaches st0)); [discriminate|].
      cbn [raise_if] in H.
      apply IH in H. destruct H as [m [Hw' Hr' Ha' Hd' Ht' Hab' Hgo' Hl' Hco' Hce']].
      cbn [walks readings attaches detaches cout cerr] in *.
      exists (S m). constructor.
      + lia.
      + lia.
      + lia.
      + lia.
      + rewrite Ht', Hw. subst be0.
        cbn [tally]. destruct (walk w (walks st)); reflexivity.
      + intros [|i] Hi.
        * rewrite Nat.add_0_r. exact Habs.
        * replace (walks st + S i)%nat with (walks st0 + i)%nat by lia.
          apply Hab'. lia.
      + intros [|i] Hi.
        * unfold leaves. rewrite Nat.add_0_r, <- Hr. lia.
        * replace (readings st + S i)%nat with (S (readings st0) + i)%nat
            by lia.
          apply Hgo'. lia.
      + replace (readings st + S m)%nat with (S (readings st0) + m)%nat
          by lia.
        exact Hl'.
      + congruence.
      + congruence. }
  destruct (walk w (walks st)) as [[msg|msg|msg]|frames] eqn:Hwalk;
    cbn [result_of] in H; try discriminate.
  - eapply Hstep; [..|exact H]; cbn; auto.
    + unfold absorbed. rewrite Hwalk. exact I.
    + rewrite Hwalk. reflexivity.
  - eapply Hstep; [..|exact H]; cbn; auto.
    + unfold absorbed. rewrite Hwalk. exact I.
    + rewrite Hwalk. reflexivity.
Qed.
End Loop.

(** ** The folded output *)

Section Folded.
Context {R : Runtime}.
Variable w : World.

Lemma written_written (st : state) (o e o' e' : string) :
  written (written st o e) o' e' = written st (o ++ o') (e ++ e').
Proof. unfold written. cbn. rewrite !append_assoc. reflexivity. Qed.

Lemma put_each_joined (fs : list Frame) (last : Frame) :
  put_each fs ++ show_frame last
  = String.concat ";" (List.map show_frame (fs ++ [last])).
Proof.
  induction fs as [|f fs IH]; [reflexivity|].
  cbn [put_each List.map List.app String.concat].
  destruct (List.map show_frame (fs ++ [last])) as [|x l] eqn:E.
  - destruct fs; discriminate.
  - rewrite <- IH, !append_assoc. reflexivity.
Qed.

Lemma folded_line_folded (first : Frame) (rest : list Frame) (n : N) :
  folded_line first rest n = folded (first :: rest, n).
Proof.
  unfold folded_line, folded. cbn [fst snd List.rev].
  rewrite <- put_each_joined, !append_assoc. reflexivity.
Qed.

Lemma print_buckets_writes (kvs : list (frames_t * N)) (st : state) :
  print_buckets kvs st =
  (Ret (if has_empty_key kvs then 1 else 0),
   written st (lines (until_empty_key kvs))
     (if has_empty_key kvs then "uh oh" ++ endl else "")).
Proof.
  revert st. induction kvs as [|[k n] r IH]; intros st.
  - cbn. unfold written. rewrite !append_nil_r. destruct st; reflexivity.
  - cbn [print_buckets has_empty_key List.existsb until_empty_key].
    unfold empty_key at 1 3. cbn [fst]. destruct k as [|first rest].
    + cbn. unfold written. rewrite append_nil_r. reflexivity.
    + unfold bind, put_cout. rewrite IH, folded_line_folded.
      cbn [orb lines]. fold (has_empty_key r).
      replace (mk_state _ _ _ _ _ _ _)
        with (written st (folded (first :: rest, n)) "")
        by (unfold written; rewrite append_nil_r; reflexivity).
      rewrite written_written. reflexivity.
Qed.

Lemma print_empty_writes (empty : N) (st : state) :
  print_empty empty st = (Ret tt, written st (null_line empty) "").
Proof.
  unfold print_empty, null_line, written. destruct (N.eqb empty 0); cbn.
  - rewrite !append_nil_r. destruct st; reflexivity.
  - rewrite append_nil_r. reflexivity.
Qed.

Lemma put_lines_writes (fs : list Frame) (st : state) :
  put_lines fs st = (Ret tt, written st (text fs) "").
Proof.
  revert st. induction fs as [|f fs IH]; intros st; cbn [put_lines text].
  - unfold written. rewrite !append_nil_r. destruct st; reflexivity.
  - unfold bind, put_cout. rewrite IH. unfold written. cbn.
    rewrite !append_assoc. reflexivity.
Qed.

Lemma sampled_completed (fuel : nat) (argv : list string)
    (seconds rate : double) (be : buckets_t * N) (st1 : state) :
  sampled w fuel argv seconds rate be st1 ->
  exists p m,
    completed w (micros rate) (plus_micros (clock w 0) (micros seconds))
      [] 0%N (loop_start p) be st1 m.
Proof.
  intros (_ & _ & p & addr & _ & _ & _ & _ & Hloop).
  apply sample_loop_ret in Hloop. destruct Hloop as [m Hm]. eauto.
Qed.

Lemma main_sampled (fuel : nat) (argv : list string)
    (seconds rate : double) (be : buckets_t * N) (st1 : state) :
  sampled w fuel argv seconds rate be st1 ->
  let kvs := iteration (fst be) in
  main w fuel argv =
  mk_run (Exit (if has_empty_key kvs then 1 else 0))
    (written st1 (null_line (snd be) ++ lines (until_empty_key kvs))
       (if has_empty_key kvs then "uh oh" ++ endl else "")).
Proof.
  intros (Hopt & Hmode & p & addr & Hp & Hrange & Hatt & Hloc & Hloop) kvs.
  rewrite (main_in_range w fuel argv seconds rate p Hopt Hp Hrange).
  unfold try_block. unfold bind at 1, PtraceAttach at 1.
  cbv zeta. cbn [attaches start]. rewrite Hatt. cbn [raise_if].
  unfold bind at 1, ThreadStateAddr at 1. cbv zeta. rewrite Hloc.
  cbn [result_of thrown_by]. rewrite Hmode.
  unfold sampling. unfold bind at 1, system_clock_now at 1.
  cbn [readings log attaches detaches walks cout cerr start].
  fold (loop_start (Strtol.strtol p)).
  unfold bind at 1. rewrite Hloop.
  unfold bind at 1. rewrite print_empty_writes, print_buckets_writes.
  fold kvs. rewrite written_written. cbn [append]. reflexivity.
Qed.
End Folded.

(** ** What the bucket map and the empty count hold *)

Section Counts.
Context {R : Runtime}.
Variable w : World.

Lemma total_app (a b : buckets_t) :
  total (a ++ b)%list = (total a + total b)%N.
Proof.
  induction a as [|[k n] a IH]; cbn; [reflexivity|]. rewrite IH. lia.
Qed.

Lemma size_t_incr_small (n : N) :
  (n + 1 < Limits.SIZE_MOD)%N -> Limits.size_t_incr n = (n + 1)%N.
Proof. intros H. unfold Limits.size_t_incr. apply N.mod_small, H. Qed.

Lemma increment_total (frames : frames_t) (b : buckets_t) (c : N) :
  find frames b = Some c ->
  (total b + 1 < Limits.SIZE_MOD)%N ->
  total (increment frames b) = (total b + 1)%N.
Proof.
  induction b as [|[k n] r IH]; cbn [find increment total];
    [discriminate|].
  destruct (same_key frames k); intros Hf Hsmall; cbn [total].
  - rewrite size_t_incr_small by lia. lia.
  - rewrite IH by (auto; lia). lia.
Qed.

Lemma count_sample_total (frames : frames_t) (b : buckets_t) :
  (total b + 1 < Limits.SIZE_MOD)%N ->
  total (count_sample frames b) = (total b + 1)%N.
Proof.
  intros Hsmall. unfold count_sample.
  destruct (find frames b) as [c|] eqn:E.
  - eapply increment_total; eauto.
  - rewrite total_app. cbn [total]. lia.
Qed.

(** As long as no counter wraps, the counters add up to the number
    of captures. *)
Lemma tally_total (m : nat) :
  forall k b e,
    (total b + e + N.of_nat m < Limits.SIZE_MOD)%N ->
    (total (fst (tally w k m b e)) + snd (tally w k m b e)
     = total b + e + N.of_nat m)%N.
Proof.
  induction m as [|m IH]; intros k b e Hsmall; cbn [tally].
  - cbn [fst snd]. lia.
  - destruct (walk w k) as [x|frames].
    + rewrite IH; rewrite size_t_incr_small; lia.
    + rewrite IH; rewrite count_sample_total; lia.
Qed.

Lemma non_fatal_walks_le (m : nat) :
  forall k, (non_fatal_walks w k m <= N.of_nat m)%N.
Proof.
  induction m as [|m IH]; intros k; cbn [non_fatal_walks]; [lia|].
  specialize (IH (S k)). destruct (walk w k) as [[]|]; lia.
Qed.

Lemma tally_empty (m : nat) :
  forall k b e,
    (forall i, (i < m)%nat -> absorbed w (k + i)) ->
    (e + N.of_nat m < Limits.SIZE_MOD)%N ->
    snd (tally w k m b e) = (e + non_fatal_walks w k m)%N.
Proof.
  induction m as [|m IH]; intros k b e Habs Hsmall;
    cbn [tally non_fatal_walks].
  - cbn [snd]. lia.
  - assert (H0 := Habs 0%nat ltac:(lia)). rewrite Nat.add_0_r in H0.
    assert (Hrest : forall i, (i < m)%nat -> absorbed w (S k + i)).
    { intros i Hi. replace (S k + i)%nat with (k + S i)%nat by lia.
      apply Habs. lia. }
    unfold absorbed in H0.
    destruct (walk w k) as [[msg|msg|msg]|frames]; try contradiction.
    + rewrite IH; auto; rewrite size_t_incr_small; lia.
    + rewrite IH; auto; lia.
Qed.

Lemma keys_increment (frames : frames_t) (b : buckets_t) :
  List.map fst (increment frames b) = List.map fst b.
Proof.
  induction b as [|[k n] r IH]; cbn; [reflexivity|].
  destruct (same_key frames k); cbn; congruence.
Qed.

Lemma keys_count_sample (frames : frames_t) (b : buckets_t) :
  List.In frames (List.map fst (count_sample frames b))
  /\ forall k, List.In k (List.map fst b) ->
               List.In k (List.map fst (count_sample frames b)).
Proof.
  unfold count_sample. destruct (find frames b) as [c|] eqn:E.
  - rewrite keys_increment. split; auto.
    apply find_some in E. apply (List.in_map fst) in E. exact E.
  - rewrite List.map_app. split; intros; apply List.in_or_app; cbn; auto.
Qed.

Lemma tally_keeps_keys (m : nat) :
  forall k b e key,
    List.In key (List.map fst b) ->
    List.In key (List.map fst (fst (tally w k m b e))).
Proof.
  induction m as [|m IH]; intros k b e key Hin; cbn [tally]; auto.
  destruct (walk w k); apply IH; auto.
  apply (proj2 (keys_count_sample _ _)), Hin.
Qed.

(** A stack a walk returned is a key of the map, whatever the
    stack. *)
Lemma tally_keys (m : nat) :
  forall k b e i frames,
    (i < m)%nat -> walk w (k + i) = inr frames ->
    List.In frames (List.map fst (fst (tally w k m b e))).
Proof.
  induction m as [|m IH]; intros k b e i frames Hi Hw; [lia|].
  cbn [tally]. destruct i as [|i].
  - rewrite Nat.add_0_r in Hw. rewrite Hw.
    apply tally_keeps_keys. apply (proj1 (keys_count_sample _ _)).
  - replace (k + S i)%nat with (S k + i)%nat in Hw by lia.
    destruct (walk w k); eapply IH; eauto; lia.
Qed.
End Counts.

(** ** Sampling runs *)

Section SamplingRuns.
Context {R : Runtime}.
Variable w : World.

Lemma until_empty_key_clean (kvs : list (frames_t * N)) :
  has_empty_key (until_empty_key kvs) = false.
Proof.
  induction kvs as [|kv r IH]; [reflexivity|]. cbn [until_empty_key].
  destruct (empty_key kv) eqn:E; [reflexivity|].
  cbn [has_empty_key List.existsb]. rewrite E. exact IH.
Qed.

Lemma until_empty_key_all (kvs : list (frames_t * N)) :
  has_empty_key kvs = false -> until_empty_key kvs = kvs.
Proof.
  induction kvs as [|kv r IH]; [reflexivity|].
  cbn [has_empty_key List.existsb until_empty_key].
  destruct (empty_key kv); [discriminate|]. cbn [orb].
  intros H. f_equal. apply IH, H.
Qed.

Lemma until_empty_key_stops (kvs : list (frames_t * N)) :
  has_empty_key kvs = true ->
  exists n after,
    kvs = (until_empty_key kvs ++ ([], n) :: after)%list.
Proof.
  induction kvs as [|[[|f k] n] r IH]; [discriminate| |].
  - intros _. exists n, r. reflexivity.
  - intros H. destruct (IH H) as (n' & after & E).
    exists n', after. cbn. f_equal. exact E.
Qed.

Lemma sampled_output (fuel : nat) (argv : list string)
    (seconds rate : double) (be : buckets_t * N) (st1 : state) :
  sampled w fuel argv seconds rate be st1 ->
  let kvs := iteration (fst be) in
  let r := main w fuel argv in
  ending r = Exit (if has_empty_key kvs then 1 else 0)
  /\ cout (final r) = null_line (snd be) ++ lines (until_empty_key kvs)
  /\ cerr (final r) = (if has_empty_key kvs then "uh oh" ++ endl else "")
  /\ log (final r) = log st1
  /\ walks (final r) = walks st1.
Proof.
  intros Hs kvs r. subst r.
  rewrite (main_sampled w fuel argv seconds rate be st1 Hs).
  destruct (sampled_completed w fuel argv seconds rate be st1 Hs)
    as (p & m & Hm).
  destruct Hm as [_ _ _ _ _ _ _ _ Hco Hce]. cbn in Hco, Hce.
  fold kvs. cbn [ending final written cout cerr log walks].
  rewrite Hco, Hce. cbn [append]. repeat split.
Qed.

(** C1.  At the end of a sampling run none of whose buckets is that
    of the empty stack (the case of C4), the driver has written to
    [std::cout]: the line ["(null) <empty>"] if [empty] is not 0;
    then, for every bucket as the iteration visits them, one line with
    the frames from the outermost to the innermost joined by [';'], a
    space and the count.  It returns 0. *)
Theorem sampling_prints_folded_stacks (fuel : nat) (argv : list string)
    (seconds rate : double) (be : buckets_t * N) (st1 : state) :
  sampled w fuel argv seconds rate be st1 ->
  let kvs := iteration (fst be) in
  has_empty_key kvs = false ->
  let r := main w fuel argv in
  cout (final r) = null_line (snd be) ++ lines kvs
  /\ ending r = Exit 0.
Proof.
  intros Hs kvs Hclean r.
  destruct (sampled_output fuel argv seconds rate be st1 Hs)
    as (He & Ho & _).
  fold kvs in He, Ho. fold r in He, Ho.
  rewrite Hclean in He.
  rewrite (until_empty_key_all kvs Hclean) in Ho. auto.
Qed.

(** C4.  When the bucket map holds an entry for the empty stack at
    the end of the loop, the driver writes ["uh oh"] to [std::cerr]
    and returns 1.  The lines of the buckets visited before that
    entry have been written by then; neither the entry nor any bucket
    after it gets a line. *)
Theorem empty_stack_in_buckets_exits_1 {OK : RuntimeOk R}
    (fuel : nat) (argv : list string) (seconds rate : double)
    (be : buckets_t * N) (st1 : state) (n : N) :
  sampled w fuel argv seconds rate be st1 ->
  List.In ([], n) (fst be) ->
  let r := main w fuel argv in
  ending r = Exit 1
  /\ cerr (final r) = "uh oh" ++ endl
  /\ exists before n' after,
       iteration (fst be) = (before ++ ([], n') :: after)%list
       /\ has_empty_key before = false
       /\ cout (final r) = null_line (snd be) ++ lines before.
Proof.
  intros Hs Hin r.
  destruct (sampled_output fuel argv seconds rate be st1 Hs)
    as (He & Ho & Hc & _).
  fold r in He, Ho, Hc.
  assert (Hkey : has_empty_key (iteration (fst be)) = true).
  { apply List.existsb_exists. exists ([], n). split; [|reflexivity].
    eapply Permutation_in; [|exact Hin].
    apply Permutation_sym, iteration_perm. }
  rewrite Hkey in He, Hc. repeat split; auto.
  destruct (until_empty_key_stops _ Hkey) as (n' & after & E).
  exists (until_empty_key (iteration (fst be))), n', after.
  repeat split; auto. apply until_empty_key_clean.
Qed.

(** *** The number of captures *)

Lemma wrap_long_small (z : Z) : in_long z -> Limits.wrap_long z = z.
Proof.
  unfold in_long, Limits.wrap_long, Limits.LONG_MIN, Limits.LONG_MAX.
  intros H. rewrite Z.mod_small; lia.
Qed.

Lemma plus_micros_exact (t us : Z) :
  in_long (ticks_per_us * us) -> in_long (t + ticks_per_us * us) ->
  plus_micros t us = t + ticks_per_us * us.
Proof.
  intros Hp Hs. unfold plus_micros.
  rewrite (wrap_long_small _ Hp). apply wrap_long_small, Hs.
Qed.

(** Without overflow the test of line 135 compares the exact sums. *)
Lemma leaves_exact (D I : Z) (upto j : nat) :
  no_overflow w D I upto -> (1 <= j <= upto)%nat ->
  leaves w I (plus_micros (clock w 0) D) j
  <-> clock w 0 + ticks_per_us * D <= clock w j + ticks_per_us * I.
Proof.
  intros (HD & H0 & HI & Hk) Hj. unfold leaves.
  rewrite (plus_micros_exact _ _ HD H0).
  rewrite (plus_micros_exact _ _ HI (Hk j Hj)). lia.
Qed.

Lemma clock_after_sleeps (interval : Z) (upto : nat) :
  sleeps_at_least w interval upto ->
  forall k, (k < upto)%nat ->
            clock w 0 + ticks_per_us * interval * Z.of_nat k
            <= clock w (S k).
Proof.
  intros [H0 Hs] k. induction k as [|k IH]; intros Hk.
  - cbn. lia.
  - specialize (Hs (S k) ltac:(lia)). specialize (IH ltac:(lia)). lia.
Qed.

Lemma clock_within_rounds (interval c : Z) (upto : nat) :
  rounds_take_at_most w interval c upto ->
  forall k, (k < upto)%nat ->
            clock w (S k)
            <= clock w 0
               + ticks_per_us * (c + (interval + c) * Z.of_nat k).
Proof.
  intros [H0 Hs] k. induction k as [|k IH]; intros Hk.
  - cbn. lia.
  - specialize (Hs (S k) ltac:(lia)). specialize (IH ltac:(lia)). lia.
Qed.

(** The loop is left, one way or another, once a clock reading within
    reach of the bound on iterations passes the test of line 135. *)
Lemma sample_loop_enough_fuel (pid addr interval deadline : Z) (fuel : nat) :
  forall b e st,
    (exists j, (readings st <= j < readings st + fuel)%nat
               /\ leaves w interval deadline j) ->
    fst (sample_loop w fuel pid addr interval deadline b e st) <> Fuel.
Proof.
  induction fuel as [|fuel IH]; intros b e st (j & Hj & Hleave); [lia|].
  cbn [sample_loop].
  unfold bind at 1. unfold catch_non_fatal, bind at 1.
  unfold GetStack at 1. cbv zeta.
  assert (Hstep : forall be0 st0,
    readings st0 = readings st ->
    fst ((now <- system_clock_now w ;;
          if plus_micros now interval >=? deadline then ret be0
          else PtraceDetach w pid ;; sleep_for interval ;;
               PtraceAttach w pid ;;
               sample_loop w fuel pid addr interval deadline
                 (fst be0) (snd be0)) st0) <> Fuel).
  { intros be0 st0 Hr.
    unfold bind at 1. unfold system_clock_now at 1.
    destruct (plus_micros (clock w (readings st0)) interval >=? deadline)
      eqn:Hbreak; [discriminate|].
    unfold bind at 1, PtraceDetach at 1. cbv zeta.
    destruct (detach_throws w _); [discriminate|]. cbn [raise_if].
    unfold bind at 1, sleep_for at 1.
    unfold bind at 1, PtraceAttach at 1. cbv zeta.
    destruct (attach_throws w _); [discriminate|]. cbn [raise_if].
    apply IH. cbn [readings]. exists j. split; [|exact Hleave].
    assert (j <> readings st); [|lia].
    intros ->. unfold leaves in Hleave. rewrite <- Hr in Hleave. lia. }
  destruct (walk w (walks st)) as [[msg|msg|msg]|frames];
    cbn [result_of]; try discriminate; apply Hstep; reflexivity.
Qed.

Lemma ceil_div_covers (a b : Z) : 0 < b -> a <= b * ceil_div a b.
Proof.
  intros Hb. unfold ceil_div.
  pose proof (Z.div_mod (a + b - 1) b ltac:(lia)) as Hdm.
  pose proof (Z.mod_pos_bound (a + b - 1) b Hb) as Hmod. lia.
Qed.

(** With enough iterations allowed for, no overflow, a clock that does
    not run backwards and sleeps that last the positive interval, the
    [try] block comes to an end. *)
Lemma try_block_finishes {OK : RuntimeOk R} (fuel : nat) (pid : Z)
    (seconds rate : double) :
  0 < micros rate ->
  no_overflow w (micros seconds) (micros rate) fuel ->
  sleeps_at_least w (micros rate) fuel ->
  (1 <= fuel)%nat ->
  ceil_div (micros seconds) (micros rate) <= Z.of_nat fuel ->
  fst (try_block w fuel pid seconds rate start) <> Fuel.
Proof.
  intros HI Hfits Hsleep Hfuel Hceil. unfold try_block.
  unfold bind at 1, PtraceAttach at 1. cbv zeta.
  destruct (attach_throws w _); [discriminate|]. cbn [raise_if].
  unfold bind at 1, ThreadStateAddr at 1. cbv zeta.
  destruct (thread_state w) as [ex|addr]; [discriminate|].
  cbn [result_of]. destruct (to_bool seconds).
  - unfold sampling. unfold bind at 1, system_clock_now at 1.
    cbn [readings start]. unfold bind at 1.
    match goal with
    | |- context [sample_loop w fuel pid addr ?i ?d ?b ?e ?s] =>
        pose proof (sample_loop_enough_fuel pid addr i d fuel b e s) as Hloop;
        destruct (sample_loop w fuel pid addr i d b e s) as [[be|ex|] st1]
    end.
    + unfold bind at 1. rewrite print_empty_writes, print_buckets_writes.
      discriminate.
    + discriminate.
    + exfalso. apply Hloop; [|reflexivity]. cbn [readings fst].
      exists fuel. split; [lia|].
      apply (leaves_exact _ _ fuel fuel Hfits); [lia|].
      destruct fuel as [|k]; [lia|].
      pose proof (clock_after_sleeps (micros rate) (S k) Hsleep k
                    ltac:(lia)) as Hclock.
      pose proof (ceil_div_covers (micros seconds) (micros rate) HI) as Hc.
      pose proof ticks_pos as Ht. nia.
  - unfold bind at 1, RunOnce, bind at 1, GetStack at 1. cbv zeta.
    destruct (walk w _); cbn [result_of]; [discriminate|].
    rewrite put_lines_writes. discriminate.
Qed.

(** C2, amended.  A sampling run whose loop ends by [break] has made
    at least one capture attempt, and [empty] plus the sum of the
    bucket counts is the number of attempts as long as that is below
    2^64, the counters being [size_t].  Let [D] and [I] be the duration
    and the interval in microseconds and let no product or sum of the
    clock arithmetic overflow during the run.  With [D] and [I]
    positive, a clock that does not run backwards and sleeps that last
    at least [I], the run has made at most [ceil(D/I)] attempts.  When
    the first capture takes at most [c] microseconds and each later
    round at most [I + c], it has made at least [ceil(D/(I+c))]
    attempts: [floor(D/I)] are reached when nothing but the sleeps
    takes time ([c = 0]), not otherwise. *)
Theorem sampling_attempts {OK : RuntimeOk R}
    (fuel : nat) (argv : list string) (seconds rate : double)
    (be : buckets_t * N) (st1 : state) :
  sampled w fuel argv seconds rate be st1 ->
  let D := micros seconds in
  let I := micros rate in
  let rounds := walks (final (main w fuel argv)) in
  let n := Z.of_nat rounds in
  1 <= n
  /\ (n < 2 ^ 64 -> Z.of_N (snd be + total (fst be)) = n)
  /\ (0 < D -> 0 < I ->
      no_overflow w D I rounds -> sleeps_at_least w I rounds ->
      n <= ceil_div D I /\ Z.of_N (snd be + total (fst be)) = n)
  /\ (forall c, 0 < I + c ->
                no_overflow w D I rounds ->
                rounds_take_at_most w I c rounds ->
                ceil_div D (I + c) <= n).
Proof.
  intros Hs D I rounds n.
  destruct (sampled_output fuel argv seconds rate be st1 Hs)
    as (_ & _ & _ & _ & Hw).
  destruct (sampled_completed w fuel argv seconds rate be st1 Hs)
    as (p & m & Hm).
  destruct Hm as [Hwalks _ _ _ Ht _ Hgo Hleave _ _].
  cbn [loop_start walks readings] in Hwalks, Ht, Hgo, Hleave.
  fold D in Hgo, Hleave. fold I in Hgo, Hleave.
  assert (Hrounds : rounds = S m)
    by (subst rounds; rewrite Hw, Hwalks; reflexivity).
  assert (Hn : n = Z.of_nat m + 1) by (subst n; rewrite Hrounds; lia).
  assert (Hsum : n < 2 ^ 64 -> Z.of_N (snd be + total (fst be)) = n).
  { intros Hsmall.
    pose proof (tally_total w (S m) 0 [] 0%N) as Hsum.
    rewrite <- Ht in Hsum. cbn [total] in Hsum.
    unfold Limits.SIZE_MOD in Hsum. lia. }
  pose proof ticks_pos as Hticks.
  assert (Hupper : 0 < I -> no_overflow w D I rounds ->
                   sleeps_at_least w I rounds ->
                   Z.of_nat m = 0 \/ I * Z.of_nat m < D).
  { intros HI Hfits Hsleep.
    destruct m as [|m]; [left; reflexivity | right].
    specialize (Hgo m ltac:(lia)). cbn [Nat.add] in Hgo.
    rewrite (leaves_exact D I rounds (S m) Hfits ltac:(lia)) in Hgo.
    pose proof (clock_after_sleeps I rounds Hsleep m ltac:(lia)) as Hclock.
    nia. }
  split; [lia|]. split; [exact Hsum|]. split.
  - intros HD HI Hfits Hsleep.
    destruct (Hupper HI Hfits Hsleep) as [H0|Hlt].
    + split.
      * rewrite Hn, H0. apply Z.div_le_lower_bound; lia.
      * apply Hsum. lia.
    + split.
      * rewrite Hn. apply Z.div_le_lower_bound; lia.
      * apply Hsum.
        pose proof (micros_long seconds) as Hlong. fold D in Hlong.
        unfold Limits.LONG_MAX in Hlong. nia.
  - intros c Hc Hfits Hround. cbn [Nat.add] in Hleave.
    rewrite (leaves_exact D I rounds (S m) Hfits ltac:(lia)) in Hleave.
    pose proof (clock_within_rounds I c rounds Hround m ltac:(lia)) as Hclock.
    rewrite Hn. unfold ceil_div.
    apply Z.lt_succ_r, Z.div_lt_upper_bound; [lia|]. nia.
Qed.
End SamplingRuns.

(** ** Every path through the [try] block *)

(** [Hm] lists what the calls of a short log threw. *)
Ltac only_thrown Hm :=
  repeat match type of Hm with
         | _ \/ _ => destruct Hm as [Hm|Hm]
         end;
  first [ discriminate Hm
        | contradiction
        | injection Hm as Hm; subst; auto ].

Section Paths.
Context {R : Runtime}.
Variable w : World.

Lemma holding_attached (pid : Z) (l : list event) :
  latest_ptrace l = Some (Attach pid None) -> holding l = true.
Proof. unfold holding. intros ->. reflexivity. Qed.

Lemma sample_loop_paths (pid addr interval deadline : Z) (fuel : nat) :
  forall b e st r st1,
    sample_loop w fuel pid addr interval deadline b e st = (r, st1) ->
    cout st1 = cout st
    /\ cerr st1 = cerr st
    /\ (forall m, raised (FatalException m) (log st1) ->
                  raised (FatalException m) (log st)
                  \/ r = Throw (FatalException m))
    /\ (alternating (log st) = true ->
        latest_ptrace (log st) = Some (Attach pid None) ->
        traced w pid r (log st1)).
Proof.
  induction fuel as [|fuel IH]; intros b e st r st1 H.
  { injection H as <- <-. unfold traced. auto 6. }
  cbn [sample_loop] in H.
  unfold bind at 1 in H. unfold catch_non_fatal, bind at 1 in H.
  unfold GetStack at 1 in H. cbv zeta in H.
  assert (Hstep : forall be0 st0 t,
    log st0 = Walk pid addr t :: log st ->
    (forall m, t <> Some (FatalException m)) ->
    cout st0 = cout st -> cerr st0 = cerr st ->
    (now <- system_clock_now w ;;
     if plus_micros now interval >=? deadline then ret be0
     else PtraceDetach w pid ;; sleep_for interval ;; PtraceAttach w pid ;;
          sample_loop w fuel pid addr interval deadline (fst be0) (snd be0))
      st0 = (r, st1) ->
    cout st1 = cout st
    /\ cerr st1 = cerr st
    /\ (forall m, raised (FatalException m) (log st1) ->
                  raised (FatalException m) (log st)
                  \/ r = Throw (FatalException m))
    /\ (alternating (log st) = true ->
        latest_ptrace (log st) = Some (Attach pid None) ->
        traced w pid r (log st1))).
  { clear H. intros be0 st0 t Hlog Ht Hco Hce H.
    unfold bind at 1 in H. unfold system_clock_now at 1 in H.
    destruct (plus_micros (clock w (readings st0)) interval >=? deadline).
    - injection H as <- <-. cbn [cout cerr log]. rewrite Hlog.
      unfold raised, traced. cbn.
      repeat split; auto.
      intros m [Hm|[Hm|Hm]]; [discriminate| |auto].
      apply Ht in Hm. contradiction.
    - unfold bind at 1, PtraceDetach at 1 in H. cbv zeta in H.
      cbn [detaches log attaches walks readings cout cerr] in H.
      destruct (detach_throws w (detaches st0)) as [ex|] eqn:Hd;
        cbn [raise_if] in H.
      { injection H as <- <-. cbn [cout cerr log]. rewrite Hlog.
        unfold raised, traced. cbn.
        repeat split; auto.
        - intros m [Hm|[Hm|[Hm|Hm]]]; try discriminate; auto.
          + injection Hm as <-. auto.
          + apply Ht in Hm. contradiction.
        - rewrite (holding_attached pid); auto.
        - right. eexists. eexists. eauto. }
      unfold bind at 1, sleep_for at 1 in H.
      unfold bind at 1, PtraceAttach at 1 in H. cbv zeta in H.
      cbn [detaches log attaches walks readings cout cerr] in H.
      destruct (attach_throws w (attaches st0)) as [ex|] eqn:Ha;
        cbn [raise_if] in H.
      { injection H as <- <-. cbn [cout cerr log]. rewrite Hlog.
        unfold raised, traced. cbn.
        repeat split; auto.
        - intros m [Hm|[Hm|[Hm|[Hm|[Hm|Hm]]]]]; try discriminate; auto.
          + injection Hm as <-. auto.
          + apply Ht in Hm. contradiction.
        - rewrite (holding_attached pid); auto.
        - right. eexists. eexists. eauto. }
      apply IH in H. cbn [cout cerr log] in H. rewrite Hlog in H.
      destruct H as (Hco' & Hce' & Hf & Htr).
      repeat split; try congruence.
      + intros m Hm. destruct (Hf m Hm) as [Hold|Hr]; auto.
        unfold raised in Hold. cbn in Hold.
        destruct Hold as [Hm'|[Hm'|[Hm'|[Hm'|[Hm'|Hm']]]]];
          try discriminate; auto.
        apply Ht in Hm'. contradiction.
      + apply Htr; [|reflexivity]. cbn.
        rewrite (holding_attached pid) by assumption. assumption.
      + apply Htr; [|reflexivity]. cbn.
        rewrite (holding_attached pid) by assumption. assumption. }
  destruct (walk w (walks st)) as [[msg|msg|msg]|frames] eqn:Hwalk;
    cbn [result_of thrown_by] in H.
  - injection H as <- <-. cbn [cout cerr log]. unfold raised, traced. cbn.
    repeat split; auto.
    intros m [Hm|Hm]; auto. injection Hm as <-. auto.
  - eapply Hstep; [..|exact H]; cbn; auto. discriminate.
  - injection H as <- <-. cbn [cout cerr log]. unfold raised, traced. cbn.
    repeat split; auto.
    intros m [Hm|Hm]; auto. discriminate.
  - eapply Hstep; [..|exact H]; cbn; auto. discriminate.
Qed.

Lemma traced_throw {A B} (pid : Z) (e : exn) (l : list event) :
  traced w pid (@Throw A e) l -> traced w pid (@Throw B e) l.
Proof.
  intros [Halt [Hl|(e' & k & He & Hl)]]; split; auto.
  right. exists e', k. split; [congruence | exact Hl].
Qed.

Lemma traced_attached {A B} (pid : Z) (r : outcome A) (r' : outcome B)
    (l : list event) :
  (forall e, r <> Throw e) -> traced w pid r l -> traced w pid r' l.
Proof.
  intros Hr [Halt [Hl|(e' & k & He & Hl)]]; split; auto.
  apply Hr in He. contradiction.
Qed.

(** What holds of the [try] block whichever way it is left. *)
Lemma try_block_paths (fuel : nat) (pid : Z) (seconds rate : double) :
  forall r st,
    try_block w fuel pid seconds rate start = (r, st) ->
    traced w pid r (log st)
    /\ (forall m, raised (FatalException m) (log st) ->
                  r = Throw (FatalException m)
                  /\ cout st = "" /\ cerr st = "")
    /\ (to_bool seconds = false ->
        forall m, raised (NonFatalException m) (log st) ->
                  r = Throw (NonFatalException m)
                  /\ cout st = "" /\ cerr st = "").
Proof.
  intros r st H. unfold try_block in H.
  unfold bind at 1, PtraceAttach at 1 in H. cbv zeta in H.
  cbn [attaches start log detaches walks readings cout cerr] in H.
  destruct (attach_throws w 0) as [ex|] eqn:Hatt; cbn [raise_if] in H.
  { injection H as <- <-. unfold traced, raised. cbn.
    split; [split; [reflexivity|] | split; [intros m Hm | intros _ m Hm]].
    - right. exists ex, 0%nat. auto.
    - only_thrown Hm.
    - only_thrown Hm. }
  unfold bind at 1, ThreadStateAddr at 1 in H. cbv zeta in H.
  cbn [attaches start log detaches walks readings cout cerr] in H.
  destruct (thread_state w) as [ex|addr] eqn:Hloc;
    cbn [result_of thrown_by] in H.
  { injection H as <- <-. unfold traced, raised. cbn.
    split; [split; [reflexivity|] | split; [intros m Hm | intros _ m Hm]].
    - auto.
    - only_thrown Hm.
    - only_thrown Hm. }
  destruct (to_bool seconds) eqn:Hmode.
  - unfold sampling in H. unfold bind at 1, system_clock_now at 1 in H.
    cbn [attaches start log detaches walks readings cout cerr] in H.
    unfold bind at 1 in H.
    match type of H with
    | context [sample_loop w fuel pid addr ?i ?d ?b ?e ?s] =>
        destruct (sample_loop w fuel pid addr i d b e s) as [r1 st1] eqn:Hloop
    end.
    apply sample_loop_paths in Hloop.
    cbn [cout cerr log] in Hloop.
    destruct Hloop as (Hco & Hce & Hf & Htr).
    specialize (Htr eq_refl eq_refl).
    assert (Hclean : forall m, raised (FatalException m) (log st1) ->
                               r1 = Throw (FatalException m)).
    { intros m Hm. destruct (Hf m Hm) as [Hold|Hr]; auto.
      unfold raised in Hold. cbn in Hold. only_thrown Hold. }
    destruct r1 as [be|ex|].
    + unfold bind at 1 in H.
      rewrite print_empty_writes, print_buckets_writes in H.
      injection H as <- <-. cbn [written log cout cerr].
      split; [|split].
      * eapply traced_attached; [|exact Htr]. discriminate.
      * intros m Hm. apply Hclean in Hm. discriminate.
      * discriminate.
    + injection H as <- <-. split; [|split].
      * eapply traced_throw, Htr.
      * intros m Hm. apply Hclean in Hm. injection Hm as ->. auto.
      * discriminate.
    + injection H as <- <-. split; [|split].
      * eapply traced_attached; [|exact Htr]. discriminate.
      * intros m Hm. apply Hclean in Hm. discriminate.
      * discriminate.
  - unfold bind at 1, RunOnce, bind at 1, GetStack at 1 in H.
    cbv zeta in H.
    cbn [attaches start log detaches walks readings cout cerr] in H.
    destruct (walk w 0) as [ex|stack] eqn:Hwalk;
      cbn [result_of thrown_by] in H.
    + injection H as <- <-. unfold traced, raised. cbn.
      split; [split; [reflexivity|] | split; [intros m Hm | intros _ m Hm]].
      * auto.
      * only_thrown Hm.
      * only_thrown Hm.
    + rewrite put_lines_writes in H. injection H as <- <-.
      unfold traced, raised. cbn.
      split; [split; [reflexivity|] | split; [intros m Hm | intros _ m Hm]].
      * auto.
      * only_thrown Hm.
      * only_thrown Hm.
Qed.
End Paths.

(** ** Errors and the tracing of the target *)

Section Exits.
Context {R : Runtime}.
Variable w : World.

(** Either [main] returns before the [try] block and has called
    nothing, or it runs the block and its handlers. *)
Lemma main_cases (fuel : nat) (argv : list string) :
  (log (final (main w fuel argv)) = []
   /\ ending (main w fuel argv) <> Unfinished)
  \/ exists pid seconds rate,
       option_loop (getopt_rets argv) lit_0 lit_0_01 = Break seconds rate
       /\ main w fuel argv
          = handlers (try_block w fuel pid seconds rate start).
Proof.
  unfold main.
  destruct (option_loop (getopt_rets argv) lit_0 lit_0_01)
    as [seconds rate|code text| |];
    try (left; split; [reflexivity | discriminate]).
  destruct (negb _); [left; split; [reflexivity | discriminate]|].
  destruct (_ || _); [left; split; [reflexivity | discriminate]|].
  right. eauto.
Qed.

(** X17.  The driver comes to an end: with a positive interval, no
    overflow in the arithmetic of the clock, sleeps that last at least
    the interval and a clock that does not run backwards, the sampling
    loop is left after at most [ceil(D/I)] rounds (one, if that is
    less), whatever the walks yield. *)
Lemma main_finishes {OK : RuntimeOk R} (fuel : nat) (argv : list string)
    (seconds rate : double) :
  option_loop (getopt_rets argv) lit_0 lit_0_01 = Break seconds rate ->
  0 < micros rate ->
  no_overflow w (micros seconds) (micros rate) fuel ->
  sleeps_at_least w (micros rate) fuel ->
  (1 <= fuel)%nat ->
  ceil_div (micros seconds) (micros rate) <= Z.of_nat fuel ->
  ending (main w fuel argv) <> Unfinished.
Proof.
  intros Hopt HI Hfits Hsleep Hfuel Hceil.
  destruct (main_cases fuel argv) as [[_ H]|(pid & s & r & Hopt' & Hmain)];
    [exact H|].
  rewrite Hopt in Hopt'. injection Hopt' as <- <-. rewrite Hmain.
  pose proof (try_block_finishes w fuel pid seconds rate HI Hfits Hsleep Hfuel
                Hceil)
    as Hfin.
  destruct (try_block w fuel pid seconds rate start) as [[c|[]|] st];
    cbn in *; try discriminate. congruence.
Qed.

(** C5, amended.  On every path the calls of [PtraceAttach] and
    [PtraceDetach] take turns, beginning with an attach.  The driver
    detaches only inside the sampling loop, before it sleeps: the last
    call of the two is never a detach that succeeded, and unless one
    of the two calls throws, the run ends with the target attached, no
    [PtraceDetach] following the last [PtraceAttach]. *)
Theorem attach_detach_take_turns (fuel : nat) (argv : list string) :
  let l := log (final (main w fuel argv)) in
  alternating l = true
  /\ (forall pid, latest_ptrace l <> Some (Detach pid None))
  /\ ((forall k, attach_throws w k = None) ->
      (forall k, detach_throws w k = None) ->
      l <> [] ->
      left_attached l = true).
Proof.
  cbv zeta.
  destruct (main_cases fuel argv) as [[Hnone _]|(pid & s & r & _ & Hmain)].
  { rewrite Hnone. repeat split; [discriminate | congruence]. }
  rewrite Hmain, handlers_log.
  destruct (try_block w fuel pid s r start) as [res st] eqn:Htry.
  destruct (try_block_paths w fuel pid s r res st Htry)
    as ((Halt & Hlatest) & _).
  cbn [snd]. split; [exact Halt|].
  unfold left_attached.
  destruct Hlatest as [Hl|(e & k & _ & [[Hl Hk]|[Hl Hk]])]; rewrite Hl.
  - split; [discriminate | reflexivity].
  - split; [discriminate|]. intros Ha _ _. congruence.
  - split; [discriminate|]. intros _ Hd _. congruence.
Qed.

(** C6.  A [FatalException] thrown by any call of the run - an
    attach, a detach, [ThreadStateAddr] or a walk - ends it with the
    text of the exception on [std::cerr], exit code 1 and nothing on
    [std::cout].  In single-shot mode a [NonFatalException] thrown by
    any call ends the run with its text on [std::cerr] and exit
    code 0. *)
Theorem exceptions_end_the_run (fuel : nat) (argv : list string) :
  let r := main w fuel argv in
  (forall m,
      raised (FatalException m) (log (final r)) ->
      ending r = Exit 1
      /\ cerr (final r) = m ++ endl
      /\ cout (final r) = "")
  /\ (forall seconds rate m,
         option_loop (getopt_rets argv) lit_0 lit_0_01
           = Break seconds rate ->
         to_bool seconds = false ->
         raised (NonFatalException m) (log (final r)) ->
         ending r = Exit 0
         /\ cerr (final r) = m ++ endl
         /\ cout (final r) = "").
Proof.
  cbv zeta.
  destruct (main_cases fuel argv) as [[Hnone _]|(pid & s & r & Hopt & Hmain)].
  { rewrite Hnone. split; intros; contradiction. }
  rewrite Hmain.
  destruct (try_block w fuel pid s r start) as [res st] eqn:Htry.
  destruct (try_block_paths w fuel pid s r res st Htry)
    as (_ & Hfatal & Hnonfatal).
  split.
  - intros m Hm. rewrite handlers_log in Hm. cbn [snd] in Hm.
    destruct (Hfatal m Hm) as (-> & Hco & Hce).
    cbn. rewrite Hco, Hce. auto.
  - intros seconds rate m Hopt' Hmode Hm.
    rewrite handlers_log in Hm. cbn [snd] in Hm.
    rewrite Hopt in Hopt'. injection Hopt' as <- <-.
    destruct (Hnonfatal Hmode m Hm) as (-> & Hco & Hce).
    cbn. rewrite Hco, Hce. auto.
Qed.
End Exits.

(** * The rest of the driver *)

(** ** The ways through [main] *)

Section Ways.
Context {R : Runtime}.
Variable w : World.

Lemma try_block_path (fuel : nat) (pid : Z) (seconds rate : double)
    (res : outcome Z) (st : state) :
  try_block w fuel pid seconds rate start = (res, st) ->
  try_path w fuel pid seconds rate res st.
Proof.
  intros H. unfold try_block in H.
  unfold bind at 1, PtraceAttach at 1 in H. cbv zeta in H.
  cbn [attaches start log detaches walks readings cout cerr] in H.
  destruct (attach_throws w 0) as [ex|] eqn:Hatt; cbn [raise_if] in H.
  { injection H as <- <-. apply attach_fails, Hatt. }
  unfold bind at 1, ThreadStateAddr at 1 in H. cbv zeta in H.
  cbn [attaches start log detaches walks readings cout cerr] in H.
  destruct (thread_state w) as [ex|addr] eqn:Hloc;
    cbn [result_of thrown_by] in H.
  { injection H as <- <-. apply locate_fails; assumption. }
  destruct (to_bool seconds) eqn:Hmode.
  - unfold sampling in H. unfold bind at 1, system_clock_now at 1 in H.
    cbn [attaches start log detaches walks readings cout cerr] in H.
    fold (loop_start pid) in H. unfold bind at 1 in H.
    destruct (sample_loop w fuel pid addr (micros rate)
                (plus_micros (clock w 0) (micros seconds)) [] 0%N
                (loop_start pid)) as [[be|ex|] st1] eqn:Hloop.
    + unfold bind at 1 in H.
      rewrite print_empty_writes, print_buckets_writes in H.
      rewrite written_written in H. cbn [append] in H.
      injection H as <- <-. eapply loop_breaks; eassumption.
    + injection H as <- <-. eapply loop_throws; eassumption.
    + injection H as <- <-. eapply loop_unfinished; eassumption.
  - unfold bind at 1, RunOnce, bind at 1, GetStack at 1 in H.
    cbv zeta in H.
    cbn [attaches start log detaches walks readings cout cerr] in H.
    destruct (walk w 0) as [ex|stack] eqn:Hwalk;
      cbn [result_of thrown_by] in H.
    + injection H as <- <-. eapply single_walk_fails; eassumption.
    + rewrite put_lines_writes in H. injection H as <- <-.
      unfold reversed, written. cbn.
      eapply single_shot; eassumption.
Qed.

(** [main] either returns before the [try] block and has called
    nothing, or goes one of the ways through the block and then through
    the handlers. *)
Lemma main_ways (fuel : nat) (argv : list string) :
  (log (final (main w fuel argv)) = []
   /\ ending (main w fuel argv) <> Unfinished)
  \/ exists pid seconds rate res st,
       option_loop (getopt_rets argv) lit_0 lit_0_01 = Break seconds rate
       /\ try_path w fuel pid seconds rate res st
       /\ main w fuel argv = handlers (res, st).
Proof.
  destruct (main_cases w fuel argv)
    as [H|(pid & seconds & rate & Hopt & Hmain)]; [left; exact H|].
  right. exists pid, seconds, rate.
  destruct (try_block w fuel pid seconds rate start) as [res st] eqn:Htry.
  exists res, st. auto using try_block_path.
Qed.

(** X1.  A single-shot run whose calls succeed prints the stack the
    walk returned, one frame a line from the outermost to the innermost,
    and returns 0.  It has made three calls: attach, locate, walk.  An
    empty stack is no error here: nothing is printed. *)
Theorem single_shot_prints_the_stack (fuel : nat) (argv : list string)
    (seconds rate : double) (p : string) (addr : Z) (stack : frames_t) :
  option_loop (getopt_rets argv) lit_0 lit_0_01 = Break seconds rate ->
  to_bool seconds = false ->
  names_target argv p ->
  Limits.PID_MIN <= Strtol.strtol p <= Limits.PID_MAX ->
  attach_throws w 0 = None ->
  thread_state w = inr addr ->
  walk w 0 = inr stack ->
  let r := main w fuel argv in
  let pid := Strtol.strtol p in
  ending r = Exit 0
  /\ cout (final r) = text (List.rev stack)
  /\ cerr (final r) = ""
  /\ List.rev (log (final r))
     = [Attach pid None; Locate pid None; Walk pid addr None].
Proof.
  intros Hopt Hmode Hp Hrange Hatt Hloc Hwalk. cbv zeta.
  rewrite (main_in_range w fuel argv seconds rate p Hopt Hp Hrange).
  destruct (try_block w fuel (Strtol.strtol p) seconds rate start)
    as [res st] eqn:Htry.
  apply try_block_path in Htry.
  destruct Htry; try congruence.
  assert (addr0 = addr) by congruence.
  assert (stack0 = stack) by congruence. subst.
  cbn. auto.
Qed.

(** X2.  In single-shot mode the driver calls [PtraceAttach],
    [ThreadStateAddr] and [GetStack] at most once each, in this order,
    and nothing else: it never detaches, sleeps or reads the clock. *)
Theorem single_shot_calls (fuel : nat) (argv : list string)
    (seconds rate : double) :
  option_loop (getopt_rets argv) lit_0 lit_0_01 = Break seconds rate ->
  to_bool seconds = false ->
  exists pid addr t1 t2 t3 n,
    List.rev (log (final (main w fuel argv)))
    = List.firstn n
        [Attach pid t1; Locate pid t2; Walk pid addr t3].
Proof.
  intros Hopt Hmode.
  destruct (main_ways fuel argv)
    as [[Hnone _]|(pid & s & r & res & st & Hopt' & Hpath & Hmain)].
  { rewrite Hnone. exists 0, 0, None, None, None, 0%nat. reflexivity. }
  rewrite Hopt in Hopt'. injection Hopt' as <- <-.
  rewrite Hmain, handlers_log. cbn [snd].
  destruct Hpath; try congruence; cbn [log List.rev List.app].
  - exists pid, 0, (Some e), None, None, 1%nat. reflexivity.
  - exists pid, 0, None, (Some e), None, 2%nat. reflexivity.
  - exists pid, addr, None, None, (Some e), 3%nat. reflexivity.
  - exists pid, addr, None, None, None, 3%nat. reflexivity.
Qed.
End Ways.

(** ** Exceptions and exit codes *)

Section ExitCodes.
Context {R : Runtime}.
Variable w : World.

Lemma handlers_throw (e : exn) (st : state) :
  handlers (Throw e, st)
  = mk_run (Exit (exit_code e)) (snd (put_cerr (what e ++ endl) st)).
Proof. destruct e; reflexivity. Qed.

(** In the log of the loop every event but the one that threw is
    quiet. *)
Lemma sample_loop_quiet (pid addr interval deadline : Z) (fuel : nat) :
  forall b e st r st1,
    sample_loop w fuel pid addr interval deadline b e st = (r, st1) ->
    exists new,
      List.forallb quiet new = true
      /\ match r with
         | Throw ex =>
             exists ev, log st1 = (ev :: new ++ log st)%list
                        /\ thrown ev = Some ex /\ quiet ev = false
         | _ => log st1 = (new ++ log st)%list
         end.
Proof.
  induction fuel as [|fuel IH]; intros b e st r st1 H.
  { injection H as <- <-. exists []. auto. }
  cbn [sample_loop] in H.
  unfold bind at 1 in H. unfold catch_non_fatal, bind at 1 in H.
  unfold GetStack at 1 in H. cbv zeta in H.
  assert (Hstep : forall be0 st0 t,
    log st0 = Walk pid addr t :: log st ->
    quiet (Walk pid addr t) = true ->
    (now <- system_clock_now w ;;
     if plus_micros now interval >=? deadline then ret be0
     else PtraceDetach w pid ;; sleep_for interval ;; PtraceAttach w pid ;;
          sample_loop w fuel pid addr interval deadline (fst be0) (snd be0))
      st0 = (r, st1) ->
    exists new,
      List.forallb quiet new = true
      /\ match r with
         | Throw ex =>
             exists ev, log st1 = (ev :: new ++ log st)%list
                        /\ thrown ev = Some ex /\ quiet ev = false
         | _ => log st1 = (new ++ log st)%list
         end).
  { clear H. intros be0 st0 t Hlog Hq H.
    unfold bind at 1 in H. unfold system_clock_now at 1 in H.
    destruct (plus_micros (clock w (readings st0)) interval >=? deadline).
    - injection H as <- <-. cbn [log]. rewrite Hlog.
      exists [Now; Walk pid addr t]. cbn [List.forallb]. rewrite Hq. auto.
    - unfold bind at 1, PtraceDetach at 1 in H. cbv zeta in H.
      cbn [detaches log attaches walks readings cout cerr] in H.
      destruct (detach_throws w (detaches st0)) as [ex|] eqn:Hd;
        cbn [raise_if] in H.
      { injection H as <- <-. cbn [log]. rewrite Hlog.
        exists [Now; Walk pid addr t]. cbn [List.forallb]. rewrite Hq.
        split; [reflexivity|]. eexists. split; [reflexivity|].
        split; reflexivity. }
      unfold bind at 1, sleep_for at 1 in H.
      unfold bind at 1, PtraceAttach at 1 in H. cbv zeta in H.
      cbn [detaches log attaches walks readings cout cerr] in H.
      destruct (attach_throws w (attaches st0)) as [ex|] eqn:Ha;
        cbn [raise_if] in H.
      { injection H as <- <-. cbn [log]. rewrite Hlog.
        exists [Sleep interval; Detach pid None; Now; Walk pid addr t].
        cbn [List.forallb]. rewrite Hq.
        split; [reflexivity|]. eexists. split; [reflexivity|].
        split; reflexivity. }
      apply IH in H. cbn [log] in H. rewrite Hlog in H.
      destruct H as (new & Hnew & Hr).
      exists (new ++ [Attach pid None; Sleep interval; Detach pid None; Now;
                      Walk pid addr t])%list.
      rewrite List.forallb_app, Hnew. cbn [List.forallb]. rewrite Hq.
      split; [reflexivity|].
      destruct r as [x|ex|].
      + rewrite Hr, <- List.app_assoc. reflexivity.
      + destruct Hr as (ev & Hl & Hev). exists ev. split; [|exact Hev].
        rewrite Hl, List.app_comm_cons, <- List.app_assoc. reflexivity.
      + rewrite Hr, <- List.app_assoc. reflexivity. }
  destruct (walk w (walks st)) as [[msg|msg|msg]|frames] eqn:Hwalk;
    cbn [result_of thrown_by] in H.
  - injection H as <- <-. exists []. split; [reflexivity|].
    eexists. cbn [log]. split; [reflexivity|]. split; reflexivity.
  - eapply Hstep; [..|exact H]; reflexivity.
  - injection H as <- <-. exists []. split; [reflexivity|].
    eexists. cbn [log]. split; [reflexivity|]. split; reflexivity.
  - eapply Hstep; [..|exact H]; reflexivity.
Qed.

Lemma quiet_in (new : list event) (ev : event) :
  List.forallb quiet new = true -> List.In ev new -> quiet ev = true.
Proof.
  intros H Hin. rewrite List.forallb_forall in H. auto.
Qed.

(** X3.  Any exception but the [NonFatalException] of a walk ends the
    run at once, whatever the mode: its text goes to [std::cerr],
    nothing to [std::cout], and the exit code is 0 for a
    [NonFatalException] and 1 otherwise.  The captures counted so far
    are not printed. *)
Theorem exception_ends_the_run (fuel : nat) (argv : list string)
    (ev : event) (e : exn) :
  List.In ev (log (final (main w fuel argv))) ->
  thrown ev = Some e ->
  quiet ev = false ->
  let r := main w fuel argv in
  ending r = Exit (exit_code e)
  /\ cerr (final r) = what e ++ endl
  /\ cout (final r) = "".
Proof.
  intros Hin Hthrown Hloud. cbv zeta.
  destruct (main_ways w fuel argv)
    as [[Hnone _]|(pid & s & rt & res & st & _ & Hpath & Hmain)].
  { rewrite Hnone in Hin. contradiction. }
  rewrite Hmain in *. rewrite handlers_log in Hin. cbn [snd] in Hin.
  assert (Hprologue : forall l,
             List.In ev (l ++ log (loop_start pid))%list ->
             List.forallb quiet l = true -> False).
  { intros l Hl Hq. apply List.in_app_or in Hl. destruct Hl as [Hl|Hl].
    - apply (quiet_in l ev Hq) in Hl. congruence.
    - cbn in Hl. destruct Hl as [<-|[<-|[<-|[]]]]; discriminate. }
  destruct Hpath as [e0 Ha|e0 Ha Hl|addr e0 Ha Hl Hm Hw|addr stack Ha Hl Hm Hw
                    |addr be st1 Ha Hl Hm Hloop|addr e0 st1 Ha Hl Hm Hloop
                    |addr st1 Ha Hl Hm Hloop].
  - cbn in Hin. destruct Hin as [<-|[]]. cbn in Hthrown.
    injection Hthrown as ->. rewrite handlers_throw. cbn. auto.
  - cbn in Hin. destruct Hin as [<-|[<-|[]]]; [|discriminate].
    cbn in Hthrown. injection Hthrown as ->. rewrite handlers_throw.
    cbn. auto.
  - cbn in Hin. destruct Hin as [<-|[<-|[<-|[]]]]; try discriminate.
    cbn in Hthrown. injection Hthrown as ->. rewrite handlers_throw.
    cbn. auto.
  - cbn in Hin. destruct Hin as [<-|[<-|[<-|[]]]]; discriminate.
  - exfalso. cbn [written log] in Hin.
    apply sample_loop_quiet in Hloop. destruct Hloop as (new & Hq & Hlog).
    rewrite Hlog in Hin. eauto.
  - pose proof (sample_loop_paths w _ _ _ _ _ _ _ _ _ _ Hloop)
      as (Hco & Hce & _).
    apply sample_loop_quiet in Hloop.
    destruct Hloop as (new & Hq & ev0 & Hlog & Hev0 & _).
    rewrite Hlog in Hin. destruct Hin as [<-|Hin].
    + assert (e0 = e) by congruence. subst e0.
      rewrite handlers_throw. cbn. rewrite Hco, Hce. auto.
    + exfalso. eauto.
  - exfalso. apply sample_loop_quiet in Hloop.
    destruct Hloop as (new & Hq & Hlog). rewrite Hlog in Hin. eauto.
Qed.

Lemma option_loop_return (rets : list Getopt.ret) :
  forall s r code text,
    option_loop rets s r = Return code text ->
    code = 0 /\ (text = usage_str \/ text = PACKAGE_STRING ++ endl).
Proof.
  induction rets as [|x rets IH]; intros s r code text H; [discriminate|].
  cbn [option_loop] in H.
  repeat match type of H with
         | (if ?b then _ else _) = _ => destruct b
         | match stod ?a with _ => _ end = _ => destruct (stod a)
         end; try discriminate; eauto.
  - injection H as <- <-. auto.
  - injection H as <- <-. auto.
Qed.

(** X4.  When [main] returns, it returns 0 or 1. *)
Theorem exit_code_is_0_or_1 (fuel : nat) (argv : list string) (code : Z) :
  ending (main w fuel argv) = Exit code -> code = 0 \/ code = 1.
Proof.
  unfold main.
  destruct (option_loop (getopt_rets argv) lit_0 lit_0_01)
    as [seconds rate|c text| |] eqn:Hopt; try discriminate.
  - destruct (negb _); [intros [= <-]; auto|].
    destruct (_ || _); [intros [= <-]; auto|].
    destruct (try_block w fuel _ seconds rate start) as [res st] eqn:Htry.
    apply try_block_path in Htry.
    destruct Htry; try rewrite handlers_throw; cbn [handlers ending];
      try discriminate.
    1-3, 6: destruct e; intros [= <-]; auto.
    + intros [= <-]. auto.
    + destruct (has_empty_key _); intros [= <-]; auto.
  - apply option_loop_return in Hopt. destruct Hopt as [-> _].
    intros [= <-]. auto.
Qed.
End ExitCodes.

(** ** The order of the calls *)

Section Order.
Context {R : Runtime}.
Variable w : World.

Lemma sample_loop_orderly (pid addr interval deadline : Z) (fuel : nat) :
  thread_state w = inr addr ->
  forall b e st r st1,
    sample_loop w fuel pid addr interval deadline b e st = (r, st1) ->
    orderly w pid interval (log st) ->
    left_attached (log st) = true ->
    orderly w pid interval (log st1).
Proof.
  intros Hloc.
  induction fuel as [|fuel IH]; intros b e st r st1 H Hord Hatt.
  { injection H as <- <-. exact Hord. }
  cbn [sample_loop] in H.
  unfold bind at 1 in H. unfold catch_non_fatal, bind at 1 in H.
  unfold GetStack at 1 in H. cbv zeta in H.
  assert (Hstep : forall be0 st0 t,
    log st0 = Walk pid addr t :: log st ->
    (now <- system_clock_now w ;;
     if plus_micros now interval >=? deadline then ret be0
     else PtraceDetach w pid ;; sleep_for interval ;; PtraceAttach w pid ;;
          sample_loop w fuel pid addr interval deadline (fst be0) (snd be0))
      st0 = (r, st1) ->
    orderly w pid interval (log st1)).
  { clear H. intros be0 st0 t Hlog H.
    assert (Hwalk : orderly w pid interval (Walk pid addr t :: log st)).
    { cbn [orderly]. auto. }
    unfold bind at 1 in H. unfold system_clock_now at 1 in H.
    destruct (plus_micros (clock w (readings st0)) interval >=? deadline).
    - injection H as <- <-. cbn [log]. rewrite Hlog. cbn [orderly]. auto.
    - unfold bind at 1, PtraceDetach at 1 in H. cbv zeta in H.
      cbn [detaches log attaches walks readings cout cerr] in H.
      assert (Hdet : forall t', orderly w pid interval
                       (Detach pid t' :: Now :: log st0)).
      { intros t'. rewrite Hlog. cbn [orderly]. repeat split; auto. }
      destruct (detach_throws w (detaches st0)) as [ex|] eqn:Hd;
        cbn [raise_if] in H.
      { injection H as <- <-. cbn [log]. apply Hdet. }
      unfold bind at 1, sleep_for at 1 in H.
      unfold bind at 1, PtraceAttach at 1 in H. cbv zeta in H.
      cbn [detaches log attaches walks readings cout cerr] in H.
      assert (Hre : forall t', orderly w pid interval
                      (Attach pid t' :: Sleep interval :: Detach pid None
                         :: Now :: log st0)).
      { intros t'. rewrite Hlog. cbn [orderly]. repeat split; auto. }
      destruct (attach_throws w (attaches st0)) as [ex|] eqn:Ha;
        cbn [raise_if] in H.
      { injection H as <- <-. cbn [log]. apply Hre. }
      eapply IH; [exact H| |reflexivity]. cbn [log]. apply Hre. }
  destruct (walk w (walks st)) as [[msg|msg|msg]|frames] eqn:Hwalk;
    cbn [result_of thrown_by] in H.
  - injection H as <- <-. cbn [log orderly]. auto.
  - eapply Hstep; [|exact H]; reflexivity.
  - injection H as <- <-. cbn [log orderly]. auto.
  - eapply Hstep; [|exact H]; reflexivity.
Qed.

Lemma try_path_orderly (fuel : nat) (pid : Z) (seconds rate : double)
    (res : outcome Z) (st : state) :
  try_path w fuel pid seconds rate res st ->
  orderly w pid (micros rate) (log st).
Proof.
  assert (Hstart : forall addr, thread_state w = inr addr ->
            orderly w pid (micros rate) (log (loop_start pid))).
  { intros addr Hl. cbn. auto. }
  intros [e0 Ha|e0 Ha Hl|addr e0 Ha Hl Hm Hw|addr stack Ha Hl Hm Hw
         |addr be st1 Ha Hl Hm Hloop|addr e0 st1 Ha Hl Hm Hloop
         |addr st1 Ha Hl Hm Hloop];
    try (cbn; solve [auto 10]).
  - cbn [written log].
    eapply (sample_loop_orderly pid addr); eauto.
  - eapply (sample_loop_orderly pid addr); eauto.
  - eapply (sample_loop_orderly pid addr); eauto.
Qed.

Lemma orderly_at (pid interval : Z) (newer : list event) (ev : event)
    (older : list event) :
  orderly w pid interval (newer ++ ev :: older)%list ->
  orderly w pid interval (ev :: older).
Proof.
  induction newer as [|x newer IH]; intros H; [exact H|].
  destruct H as [H _]. exact (IH H).
Qed.

(** X5.  Whenever the driver looks at the target ([ThreadStateAddr],
    [GetStack]) or detaches from it, the latest attach has succeeded
    and no detach has followed; whenever it sleeps, it has detached
    before.  This holds on every path, error paths included. *)
Theorem attached_when_read_released_when_asleep (fuel : nat)
    (argv : list string) (newer : list event) (ev : event)
    (older : list event) :
  log (final (main w fuel argv)) = (newer ++ ev :: older)%list ->
  match ev with
  | Locate _ _ | Walk _ _ _ | Detach _ _ => left_attached older = true
  | Sleep _ => released older = true
  | Attach _ _ | Now => True
  end.
Proof.
  intros Hlog.
  destruct (main_ways w fuel argv)
    as [[Hnone _]|(pid & s & rt & res & st & _ & Hpath & Hmain)].
  { rewrite Hnone in Hlog. destruct newer; discriminate. }
  rewrite Hmain, handlers_log in Hlog. cbn [snd] in Hlog.
  apply try_path_orderly in Hpath. rewrite Hlog in Hpath.
  apply orderly_at in Hpath. destruct Hpath as [_ Hev].
  destruct ev; try tauto.
  destruct Hev as [_ ->]. reflexivity.
Qed.

(** X6.  Every call of a run is made for the process named on the
    command line; every walk starts from the address [ThreadStateAddr]
    returned, which is asked for once, right after the first attach;
    every sleep lasts the interval of the [-r] option. *)
Theorem one_process_one_address (fuel : nat) (argv : list string)
    (seconds rate : double) (p : string) (newer : list event) (ev : event)
    (older : list event) :
  option_loop (getopt_rets argv) lit_0 lit_0_01 = Break seconds rate ->
  names_target argv p ->
  Limits.PID_MIN <= Strtol.strtol p <= Limits.PID_MAX ->
  log (final (main w fuel argv)) = (newer ++ ev :: older)%list ->
  let pid := Strtol.strtol p in
  match ev with
  | Attach q _ | Detach q _ => q = pid
  | Locate q _ => q = pid /\ older = [Attach pid None]
  | Walk q a _ => q = pid /\ thread_state w = inr a
  | Sleep us => us = micros rate
  | Now => True
  end.
Proof.
  intros Hopt Hp Hrange Hlog. cbv zeta.
  rewrite (main_in_range w fuel argv seconds rate p Hopt Hp Hrange) in Hlog.
  rewrite handlers_log in Hlog.
  destruct (try_block w fuel (Strtol.strtol p) seconds rate start)
    as [res st] eqn:Htry.
  apply try_block_path, try_path_orderly in Htry. cbn [snd] in Hlog.
  rewrite Hlog in Htry. apply orderly_at in Htry.
  destruct Htry as [_ Hev]. destruct ev; tauto.
Qed.
End Order.

(** ** The bucket map *)

Section BucketMap.
Context {R : Runtime}.
Variable w : World.

Lemma same_key_refl (frames : frames_t) : same_key frames frames = true.
Proof. apply same_key_eq. reflexivity. Qed.

Lemma same_key_other (f g : frames_t) : g <> f -> same_key g f = false.
Proof.
  intros Hne. destruct (same_key g f) eqn:E; [|reflexivity].
  apply same_key_eq in E. congruence.
Qed.

Lemma find_increment_same (f : frames_t) (b : buckets_t) (c : N) :
  find f b = Some c -> find f (increment f b) = Some (Limits.size_t_incr c).
Proof.
  induction b as [|[k n] r IH]; cbn [find increment]; [discriminate|].
  destruct (same_key f k) eqn:E; cbn [find]; rewrite E.
  - intros [= ->]. reflexivity.
  - exact IH.
Qed.

Lemma find_increment_other (f g : frames_t) (b : buckets_t) :
  g <> f -> find g (increment f b) = find g b.
Proof.
  intros Hne. induction b as [|[k n] r IH]; cbn [find increment];
    [reflexivity|].
  destruct (same_key f k) eqn:E; cbn [find].
  - apply same_key_eq in E. subst k.
    rewrite (same_key_other f g Hne). reflexivity.
  - rewrite IH. reflexivity.
Qed.

Lemma find_append (f g : frames_t) (b : buckets_t) (n : N) :
  find g (b ++ [(f, n)])%list =
  match find g b with
  | Some c => Some c
  | None => if same_key g f then Some n else None
  end.
Proof.
  induction b as [|[k c] r IH]; cbn [find List.app]; [reflexivity|].
  destruct (same_key g k); [reflexivity | exact IH].
Qed.

Lemma find_count_sample (frames key : frames_t) (b : buckets_t) :
  find key (count_sample frames b) =
  if frames_eqb frames key then
    Some (match find frames b with
          | None => 1%N
          | Some c => Limits.size_t_incr c
          end)
  else find key b.
Proof.
  destruct (frames_eqb frames key) eqn:E.
  - apply frames_eqb_eq in E. subst key. unfold count_sample.
    destruct (find frames b) as [c|] eqn:Hf.
    + apply find_increment_same, Hf.
    + rewrite find_append, Hf, same_key_refl. reflexivity.
  - assert (Hne : key <> frames).
    { intros ->. rewrite (proj2 (frames_eqb_eq frames frames) eq_refl) in E.
      discriminate. }
    unfold count_sample. destruct (find frames b) as [c|] eqn:Hf.
    + apply find_increment_other, Hne.
    + rewrite find_append, (same_key_other frames key Hne).
      destruct (find key b); reflexivity.
Qed.

(** X7.  Counting a stack and looking one up: after
    [count_sample frames], the map holds for [frames] one more than
    before (1 if it had no entry, with the wrap-around of [size_t]) and
    for every other stack what it held before. *)
Theorem count_sample_lookup (frames : frames_t) (b : buckets_t) :
  find frames (count_sample frames b)
  = Some (match find frames b with
          | None => 1%N
          | Some c => Limits.size_t_incr c
          end)
  /\ forall key, key <> frames ->
                 find key (count_sample frames b) = find key b.
Proof.
  split.
  - rewrite find_count_sample.
    rewrite (proj2 (frames_eqb_eq frames frames) eq_refl). reflexivity.
  - intros key Hne. rewrite find_count_sample.
    destruct (frames_eqb frames key) eqn:E; [|reflexivity].
    apply frames_eqb_eq in E. congruence.
Qed.

Lemma count_sample_nodup (frames : frames_t) (b : buckets_t) :
  List.NoDup (List.map fst b) ->
  List.NoDup (List.map fst (count_sample frames b)).
Proof.
  intros Hnd. unfold count_sample.
  destruct (find frames b) as [c|] eqn:Hf.
  - rewrite keys_increment. exact Hnd.
  - rewrite List.map_app. cbn [List.map fst].
    apply List.NoDup_app; [exact Hnd | repeat constructor; auto|].
    intros key Hin [<-|[]].
    apply List.in_map_iff in Hin. destruct Hin as ([k n] & Hk & Hin).
    cbn in Hk. subst k. exact (find_none frames b Hf n Hin).
Qed.

Lemma tally_nodup (m : nat) :
  forall k b e,
    List.NoDup (List.map fst b) ->
    List.NoDup (List.map fst (fst (tally w k m b e))).
Proof.
  induction m as [|m IH]; intros k b e Hnd; cbn [tally]; [exact Hnd|].
  destruct (walk w k); apply IH; auto using count_sample_nodup.
Qed.

(** X8.  At the end of the sampling loop no stack has two entries in
    the bucket map: each line of the output is that of another stack. *)
Theorem one_bucket_for_each_stack (fuel : nat) (argv : list string)
    (seconds rate : double) (be : buckets_t * N) (st1 : state) :
  sampled w fuel argv seconds rate be st1 ->
  List.NoDup (List.map fst (fst be)).
Proof.
  intros Hs.
  destruct (sampled_completed w fuel argv seconds rate be st1 Hs)
    as (p & m & Hm).
  destruct Hm as [_ _ _ _ Ht _ _ _ _ _]. rewrite Ht.
  apply tally_nodup. constructor.
Qed.

Lemma count_of_count_sample (frames key : frames_t) (b : buckets_t) :
  (count_of key b + 1 < Limits.SIZE_MOD)%N ->
  count_of key (count_sample frames b)
  = (count_of key b + if frames_eqb frames key then 1 else 0)%N.
Proof.
  intros Hsmall. unfold count_of in *. rewrite find_count_sample.
  destruct (frames_eqb frames key) eqn:E.
  - apply frames_eqb_eq in E. subst key.
    destruct (find frames b) as [c|]; [|reflexivity].
    apply size_t_incr_small, Hsmall.
  - destruct (find key b); lia.
Qed.

Lemma tally_count (m : nat) :
  forall k b e key,
    (count_of key b + N.of_nat m < Limits.SIZE_MOD)%N ->
    count_of key (fst (tally w k m b e))
    = (count_of key b + occurrences w k m key)%N.
Proof.
  induction m as [|m IH]; intros k b e key Hsmall;
    cbn [tally occurrences]; [cbn [fst]; lia|].
  destruct (walk w k) as [x|frames].
  - rewrite IH by lia. lia.
  - rewrite IH; rewrite count_of_count_sample; try lia.
    destruct (frames_eqb frames key); lia.
Qed.

Lemma occurrences_walk (m : nat) :
  forall k key,
    (0 < occurrences w k m key)%N <->
    exists i, (i < m)%nat /\ walk w (k + i) = inr key.
Proof.
  induction m as [|m IH]; intros k key; cbn [occurrences].
  - split; [lia | intros (i & Hi & _); lia].
  - split.
    + intros Hpos.
      destruct (walk w k) as [x|frames] eqn:Hw.
      * destruct (proj1 (IH (S k) key)) as (i & Hi & Hwi); [lia|].
        exists (S i). split; [lia|].
        replace (k + S i)%nat with (S k + i)%nat by lia. exact Hwi.
      * destruct (frames_eqb frames key) eqn:E.
        { apply frames_eqb_eq in E. subst. exists 0%nat.
          rewrite Nat.add_0_r. split; [lia | exact Hw]. }
        destruct (proj1 (IH (S k) key)) as (i & Hi & Hwi); [lia|].
        exists (S i). split; [lia|].
        replace (k + S i)%nat with (S k + i)%nat by lia. exact Hwi.
    + intros ([|i] & Hi & Hwi).
      * rewrite Nat.add_0_r in Hwi. rewrite Hwi.
        rewrite (proj2 (frames_eqb_eq key key) eq_refl). lia.
      * replace (k + S i)%nat with (S k + i)%nat in Hwi by lia.
        assert (0 < occurrences w (S k) m key)%N.
        { apply IH. exists i. split; [lia | exact Hwi]. }
        lia.
Qed.

Lemma tally_keys_from_walks (m : nat) :
  forall k b e key,
    List.In key (List.map fst (fst (tally w k m b e))) ->
    List.In key (List.map fst b)
    \/ exists i, (i < m)%nat /\ walk w (k + i) = inr key.
Proof.
  induction m as [|m IH]; intros k b e key Hin; cbn [tally] in Hin;
    [left; exact Hin|].
  assert (Hshift : (exists i, (i < m)%nat /\ walk w (S k + i) = inr key) ->
                   exists i, (i < S m)%nat /\ walk w (k + i) = inr key).
  { intros (i & Hi & Hwi). exists (S i). split; [lia|].
    replace (k + S i)%nat with (S k + i)%nat by lia. exact Hwi. }
  destruct (walk w k) as [x|frames] eqn:Hw.
  - destruct (IH _ _ _ _ Hin) as [H|H]; auto.
  - destruct (IH _ _ _ _ Hin) as [H|H]; auto.
    unfold count_sample in H. destruct (find frames b).
    + rewrite keys_increment in H. auto.
    + rewrite List.map_app in H. apply List.in_app_or in H.
      destruct H as [H|[<-|[]]]; auto.
      right. exists 0%nat. rewrite Nat.add_0_r. split; [lia | exact Hw].
Qed.

(** X9.  The bucket map is the histogram of the captures: at the end of
    a sampling loop of fewer than 2^64 captures the count of a stack is
    the number of walks that returned it, and a stack has an entry
    exactly when some walk returned it. *)
Theorem buckets_count_the_walks (fuel : nat) (argv : list string)
    (seconds rate : double) (be : buckets_t * N) (st1 : state)
    (key : frames_t) :
  sampled w fuel argv seconds rate be st1 ->
  let n := walks (final (main w fuel argv)) in
  Z.of_nat n < 2 ^ 64 ->
  count_of key (fst be) = occurrences w 0 n key
  /\ (List.In key (List.map fst (fst be)) <->
      exists i, (i < n)%nat /\ walk w i = inr key).
Proof.
  intros Hs n Hsmall.
  destruct (sampled_output w fuel argv seconds rate be st1 Hs)
    as (_ & _ & _ & _ & Hw).
  destruct (sampled_completed w fuel argv seconds rate be st1 Hs)
    as (p & m & Hm).
  destruct Hm as [Hwalks _ _ _ Ht _ _ _ _ _].
  cbn [loop_start walks] in Hwalks, Ht.
  assert (Hn : n = S m) by (subst n; rewrite Hw, Hwalks; reflexivity).
  rewrite Hn in *. rewrite Ht. split.
  - rewrite tally_count; [reflexivity|].
    unfold count_of, Limits.SIZE_MOD. cbn [find]. lia.
  - split.
    + intros Hin. apply tally_keys_from_walks in Hin.
      destruct Hin as [[]|Hin]. exact Hin.
    + intros (i & Hi & Hwi). eapply (tally_keys w (S m) 0); eauto.
Qed.
End BucketMap.

(** ** The hash of a stack *)

Section Hash.
Context {R : Runtime}.

Lemma lxor_4 (h a b c d : N) :
  N.lxor (N.lxor (N.lxor h a) b) (N.lxor c d)
  = N.lxor h (N.lxor (N.lxor a c) (N.lxor b d)).
Proof.
  apply N.bits_inj. intros k. rewrite !N.lxor_spec.
  destruct (N.testbit h k), (N.testbit a k), (N.testbit b k),
    (N.testbit c k), (N.testbit d k); reflexivity.
Qed.

Lemma FrameHash_loop_parts (frames : frames_t) :
  forall i hash,
    FrameHash_loop i frames hash
    = N.lxor hash
        (N.lxor (positions_hash i (List.length frames))
           (names_hash (List.map file frames))).
Proof.
  induction frames as [|f r IH]; intros i hash;
    cbn [FrameHash_loop List.length List.map positions_hash names_hash].
  - cbn. rewrite N.lxor_0_r. reflexivity.
  - rewrite IH. apply lxor_4.
Qed.

Lemma names_hash_perm (a b : list string) :
  Permutation a b -> names_hash a = names_hash b.
Proof.
  induction 1 as [|x a b _ IH|x y a|a b c _ IH1 _ IH2]; cbn [names_hash].
  - reflexivity.
  - rewrite IH. reflexivity.
  - apply N.bits_inj. intros k. rewrite !N.lxor_spec.
    destruct (N.testbit (hash_string x) k), (N.testbit (hash_string y) k);
      reflexivity.
  - congruence.
Qed.

(** X10.  [FrameHash] does not tie a file name to its position: the
    positions and the file names enter the value separately, so two
    stacks with the same file names in any order have the same hash
    value. *)
Theorem FrameHash_ignores_the_order (a b : frames_t) :
  Permutation (List.map file a) (List.map file b) ->
  FrameHash a = FrameHash b.
Proof.
  intros Hperm. unfold FrameHash. rewrite !FrameHash_loop_parts.
  rewrite (names_hash_perm _ _ Hperm).
  apply Permutation_length in Hperm. rewrite !List.length_map in Hperm.
  rewrite Hperm. reflexivity.
Qed.
End Hash.

(** ** Short runs *)

Section ShortRuns.
Context {R : Runtime}.
Variable w : World.

(** X11.  When the interval is not shorter than the duration (both in
    microseconds; a negative duration is a case), the arithmetic of
    the clock does not overflow in the first round and the clock does
    not run backwards during the first capture, the sampling loop
    captures once: the run neither detaches nor sleeps. *)
Theorem one_capture_when_interval_covers_duration {OK : RuntimeOk R}
    (fuel : nat) (argv : list string) (seconds rate : double)
    (be : buckets_t * N) (st1 : state) :
  sampled w fuel argv seconds rate be st1 ->
  micros seconds <= micros rate ->
  no_overflow w (micros seconds) (micros rate) 1 ->
  clock w 0 <= clock w 1 ->
  exists pid addr t,
    List.rev (log (final (main w fuel argv)))
    = [Attach pid None; Locate pid None; Now; Walk pid addr t; Now].
Proof.
  intros Hs HDI Hfits Hclock.
  pose proof (main_sampled w fuel argv seconds rate be st1 Hs) as Hmain.
  cbv zeta in Hmain. rewrite Hmain. cbn [final written log]. clear Hmain.
  destruct Hs as (_ & _ & p & addr & _ & _ & _ & _ & Hloop).
  exists (Strtol.strtol p), addr.
  destruct fuel as [|fuel]; [discriminate|].
  cbn [sample_loop] in Hloop.
  unfold bind at 1 in Hloop. unfold catch_non_fatal, bind at 1 in Hloop.
  unfold GetStack at 1 in Hloop. cbv zeta in Hloop.
  cbn [loop_start walks] in Hloop.
  assert (Hbreak : (plus_micros (clock w 1) (micros rate)
                    >=? plus_micros (clock w 0) (micros seconds)) = true).
  { destruct Hfits as (HD & H0 & HI & Hk).
    rewrite (plus_micros_exact _ _ HD H0).
    rewrite (plus_micros_exact _ _ HI (Hk 1%nat ltac:(lia))).
    apply Z.geb_le. pose proof ticks_pos. nia. }
  destruct (walk w 0) as [[msg|msg|msg]|frames];
    cbn [result_of thrown_by] in Hloop; try discriminate;
    unfold bind, system_clock_now, ret in Hloop;
    cbn [readings loop_start] in Hloop; rewrite Hbreak in Hloop;
    injection Hloop as _ <-; eexists; reflexivity.
Qed.

(** X12.  A sampling loop that ends by [break] after [n] captures has
    attached [n] times (the first attach of [main] included), detached
    [n - 1] times and read the clock [n + 1] times: the target is
    stopped once for each capture and let run between two captures. *)
Theorem calls_of_a_sampling_run (fuel : nat) (argv : list string)
    (seconds rate : double) (be : buckets_t * N) (st1 : state) :
  sampled w fuel argv seconds rate be st1 ->
  let st := final (main w fuel argv) in
  let n := walks st in
  attaches st = n /\ S (detaches st) = n /\ readings st = S n.
Proof.
  intros Hs.
  pose proof (main_sampled w fuel argv seconds rate be st1 Hs) as Hmain.
  cbv zeta in *. rewrite Hmain.
  cbn [final written walks attaches detaches readings].
  destruct (sampled_completed w fuel argv seconds rate be st1 Hs)
    as (p & m & Hm).
  destruct Hm as [Hw Hr Ha Hd _ _ _ _ _ _].
  cbn [loop_start walks readings attaches detaches] in *. lia.
Qed.
End ShortRuns.

(** ** The command line, again *)

Section Options.
Context {R : Runtime}.
Variable w : World.

(** X13.  With no operand, or more than one, the driver writes the
    usage line to [std::cerr] and returns 1 without calling anything. *)
Theorem usage_error (fuel : nat) (prog : string) (args : list string)
    (seconds rate : double) :
  option_loop (getopt_rets (prog :: args)) lit_0 lit_0_01
    = Break seconds rate ->
  List.length (Getopt.operands (Getopt.scan optstring long_options args))
    <> 1%nat ->
  main w fuel (prog :: args)
  = mk_run (Exit 1) (mk_state [] 0 0 0 0 "" usage_str).
Proof.
  intros Hopt Hlen. unfold main. rewrite Hopt.
  pose proof (scan_accounts_for_all args) as Hall.
  replace (optind (prog :: args) =? _) with false; [reflexivity|].
  symmetry. apply Z.eqb_neq.
  unfold optind, Getopt.final_optind. cbn [List.tl List.length]. lia.
Qed.

(** X14.  [-h] and [-v] win over what follows them: once [getopt_long]
    returns one of them, the options before it having left the loop
    running, the driver prints the usage line (the package string for
    [-v]) on [std::cout] and returns 0 without calling anything,
    whatever else the command line holds. *)
Theorem help_and_version (fuel : nat) (argv : list string)
    (before after : list Getopt.ret) (x : Getopt.ret)
    (seconds rate : double) :
  getopt_rets argv = (before ++ x :: after)%list ->
  option_loop before lit_0 lit_0_01 = Break seconds rate ->
  (Getopt.c x = "h"%char ->
   main w fuel argv = mk_run (Exit 0) (mk_state [] 0 0 0 0 usage_str ""))
  /\ (Getopt.c x = "v"%char ->
      main w fuel argv
      = mk_run (Exit 0) (mk_state [] 0 0 0 0 (PACKAGE_STRING ++ endl) "")).
Proof.
  intros Hrets Hbefore. unfold main.
  rewrite Hrets, option_loop_app, Hbefore. cbn [option_loop].
  split; intros ->; reflexivity.
Qed.

(** X15.  An argument of [-r] or [-s] that [std::stod] rejects ends the
    process by an exception nobody catches: the option loop is outside
    the [try] block.  Nothing has been written or called. *)
Theorem bad_number_terminates (fuel : nat) (argv : list string)
    (before after : list Getopt.ret) (x : Getopt.ret)
    (seconds rate : double) :
  getopt_rets argv = (before ++ x :: after)%list ->
  option_loop before lit_0 lit_0_01 = Break seconds rate ->
  Getopt.c x = "r"%char \/ Getopt.c x = "s"%char ->
  stod (Getopt.optarg x) = None ->
  main w fuel argv = mk_run Terminated start.
Proof.
  intros Hrets Hbefore Hc Hstod. unfold main.
  rewrite Hrets, option_loop_app, Hbefore. cbn [option_loop].
  destruct Hc as [-> | ->]; cbn; rewrite Hstod; reflexivity.
Qed.
End Options.

(** ** The only way to [abort()] *)

Section Abort.
Context {R : Runtime}.
Variable w : World.

Lemma short_lookup_case (ch : ascii) (a : Getopt.has_arg_t) :
  Getopt.short_lookup ch optstring = Some a ->
  Ascii.eqb ch ":" = false ->
  has_case ch = true \/ ch = "j"%char.
Proof.
  unfold optstring. cbn [Getopt.short_lookup].
  repeat match goal with
         | |- context [Ascii.eqb ?o ch] =>
             let E := fresh "E" in
             destruct (Ascii.eqb o ch) eqn:E;
             [apply Ascii.eqb_eq in E; subst ch; intros _ Hc;
              first [left; reflexivity | right; reflexivity
                    | vm_compute in Hc; discriminate Hc]
             |]
         end.
  discriminate.
Qed.

Lemma scan_short_cases (s : string) (next : option string) (x : Getopt.ret) :
  List.In x (fst (Getopt.scan_short optstring s next)) ->
  has_case (Getopt.c x) = true \/ Getopt.c x = "j"%char.
Proof.
  induction s as [|ch s IH]; cbn [Getopt.scan_short]; [intros []|].
  destruct (Ascii.eqb ch ":") eqn:Ecolon.
  - destruct (Getopt.scan_short optstring s next) as [l b].
    cbn [fst] in *. intros [<-|Hin]; [left; reflexivity | auto].
  - destruct (Getopt.short_lookup ch optstring) as [[|]|] eqn:El.
    + destruct (Getopt.scan_short optstring s next) as [l b].
      cbn [fst] in *. intros [<-|Hin]; [|auto].
      cbn [Getopt.c]. eapply short_lookup_case; eauto.
    + destruct s as [|ch' s']; [destruct next|]; cbn [fst];
        intros [<-|[]]; cbn [Getopt.c];
        first [left; reflexivity | eapply short_lookup_case; eauto].
    + destruct (Getopt.scan_short optstring s next) as [l b].
      cbn [fst] in *. intros [<-|Hin]; [left; reflexivity | auto].
Qed.

Lemma indexed_in {A} (l : list A) :
  forall k i (o : A), List.In (i, o) (Getopt.indexed k l) -> List.In o l.
Proof.
  induction l as [|a l IH]; intros k i o; cbn [Getopt.indexed];
    [intros []|].
  intros [[= _ <-]|H]; [left; reflexivity | right; eauto].
Qed.

Lemma long_lookup_in (nm : string) (i : nat) (o : Getopt.option_t) :
  Getopt.long_lookup long_options nm = Some (i, o) ->
  List.In o long_options.
Proof.
  unfold Getopt.long_lookup.
  destruct (List.find _ _) as [r|] eqn:Ef.
  - intros [= ->]. apply List.find_some in Ef.
    eapply indexed_in, (proj1 Ef).
  - destruct (List.filter _ _) as [|r [|r' l]] eqn:Efl; try discriminate.
    intros [= ->].
    assert (Hin : List.In (i, o) (List.filter
              (fun r => String.prefix nm (Getopt.name (snd r)))
              (Getopt.indexed 0 long_options))).
    { rewrite Efl. left. reflexivity. }
    apply List.filter_In in Hin. eapply indexed_in, (proj1 Hin).
Qed.

Lemma scan_long_cases (s : string) (next : option string) :
  has_case (Getopt.c (fst (Getopt.scan_long long_options s next))) = true.
Proof.
  unfold Getopt.scan_long. destruct (Getopt.split_eq s) as [nm v].
  destruct (Getopt.long_lookup long_options nm) as [[i o]|] eqn:El;
    [|reflexivity].
  apply long_lookup_in in El.
  assert (Ho : Getopt.flag o = false /\ has_case (Getopt.val o) = true).
  { destruct El as [<-|[<-|[<-|[<-|[]]]]]; split; reflexivity. }
  destruct Ho as [Hflag Hval]. rewrite Hflag.
  destruct (Getopt.has_arg o), v, next; cbn [fst Getopt.c];
    first [exact Hval | reflexivity].
Qed.

Lemma scan_cases (args : list string) (x : Getopt.ret) :
  List.In x (Getopt.rets (Getopt.scan optstring long_options args)) ->
  has_case (Getopt.c x) = true \/ Getopt.c x = "j"%char.
Proof.
  assert (H : forall n args, (List.length args <= n)%nat ->
    List.In x (Getopt.rets (Getopt.scan optstring long_options args)) ->
    has_case (Getopt.c x) = true \/ Getopt.c x = "j"%char).
  { clear args. induction n as [|n IH]; intros args Hn.
    - destruct args; [intros [] | cbn in Hn; lia].
    - destruct args as [|a rest]; [intros []|].
      cbn [List.length] in Hn.
      assert (Hrest := IH rest ltac:(lia)).
      cbn [Getopt.scan].
      destruct (Getopt.classify a).
      + intros [].
      + destruct rest as [|b rest'].
        { cbn. intros [<-|[]]. left. apply scan_long_cases. }
        assert (Hrest' := IH rest' ltac:(cbn [List.length] in Hn; lia)).
        pose proof (scan_long_cases s (Some b)) as Hlong.
        destruct (Getopt.scan_long long_options s (Some b)) as [r used].
        cbn [fst] in Hlong.
        destruct used; cbn [Getopt.more Getopt.rets List.app];
          (intros [<-|Hin]; [left; exact Hlong | auto]).
      + destruct rest as [|b rest'].
        { cbn [Getopt.more Getopt.rets Getopt.nothing].
          rewrite List.app_nil_r. apply scan_short_cases. }
        assert (Hrest' := IH rest' ltac:(cbn [List.length] in Hn; lia)).
        pose proof (scan_short_cases s (Some b) x) as Hshort.
        destruct (Getopt.scan_short optstring s (Some b)) as [rs used].
        cbn [fst] in Hshort.
        destruct used; cbn [Getopt.more Getopt.rets];
          (intros Hin; apply List.in_app_or in Hin;
           destruct Hin as [Hin|Hin]; auto).
      + cbn [Getopt.rets]. exact Hrest. }
  apply (H (List.length args)). lia.
Qed.

Lemma option_loop_abort (rets : list Getopt.ret) :
  forall s r,
    option_loop rets s r = Abort ->
    exists x, List.In x rets /\ has_case (Getopt.c x) = false.
Proof.
  induction rets as [|x rets IH]; intros s r H; [discriminate|].
  cbn [option_loop] in H. unfold has_case.
  destruct (Ascii.eqb (Getopt.c x) "000") eqn:E0;
    [destruct (IH _ _ H) as (y & Hy & Hc); exists y; cbn; auto|].
  destruct (Ascii.eqb (Getopt.c x) "h") eqn:Eh; [discriminate|].
  destruct (Ascii.eqb (Getopt.c x) "r") eqn:Er.
  { destruct (stod _); [|discriminate].
    destruct (IH _ _ H) as (y & Hy & Hc). exists y. cbn. auto. }
  destruct (Ascii.eqb (Getopt.c x) "s") eqn:Es.
  { destruct (stod _); [|discriminate].
    destruct (IH _ _ H) as (y & Hy & Hc). exists y. cbn. auto. }
  destruct (Ascii.eqb (Getopt.c x) "v") eqn:Ev; [discriminate|].
  destruct (Ascii.eqb (Getopt.c x) "?") eqn:Eq;
    [destruct (IH _ _ H) as (y & Hy & Hc); exists y; cbn; auto|].
  exists x. split; [left; reflexivity|].
  rewrite E0, Eh, Er, Es, Ev, Eq. reflexivity.
Qed.

(** X16.  The driver calls [abort()] for the option [-j] only: every
    other value [getopt_long] can return for this option string and
    this table of long options has a [case] in the [switch]. *)
Theorem abort_only_for_j (fuel : nat) (argv : list string) :
  ending (main w fuel argv) = Aborted ->
  exists x, List.In x (getopt_rets argv) /\ Getopt.c x = "j"%char.
Proof.
  unfold main.
  destruct (option_loop (getopt_rets argv) lit_0 lit_0_01)
    as [seconds rate|c text| |] eqn:Hopt; try discriminate.
  - destruct (negb _); [discriminate|].
    destruct (_ || _); [discriminate|].
    destruct (try_block w fuel _ seconds rate start) as [[c|[]|] st];
      discriminate.
  - intros _. apply option_loop_abort in Hopt.
    destruct Hopt as (x & Hin & Hcase). exists x. split; [exact Hin|].
    destruct (scan_cases _ x Hin) as [H|H]; [congruence | exact H].
Qed.
End Abort.

(** ** Options the driver does not know *)

Section Unknown.
Context {R : Runtime}.
Variable w : World.

Lemma option_loop_unknown (rets : list Getopt.ret) (s r : double) :
  (forall x, List.In x rets -> Getopt.c x = "?"%char) ->
  option_loop rets s r = Break s r.
Proof.
  induction rets as [|x rets IH]; intros H; [reflexivity|].
  cbn [option_loop]. rewrite (H x (or_introl eq_refl)). cbn.
  apply IH. intros y Hy. apply H. right. exact Hy.
Qed.

(** X18.  Options that [getopt_long] reports as unknown or malformed do
    not stop the driver: if there are no others, it goes on with the
    single operand as it does without options, duration 0 and interval
    0.01, and attaches. *)
Theorem unknown_options_are_passed_over (fuel : nat) (argv : list string)
    (p : string) :
  (forall x, List.In x (getopt_rets argv) -> Getopt.c x = "?"%char) ->
  names_target argv p ->
  Limits.PID_MIN <= Strtol.strtol p <= Limits.PID_MAX ->
  main w fuel argv
  = handlers (try_block w fuel (Strtol.strtol p) lit_0 lit_0_01 start).
Proof.
  intros Hunknown Hp Hrange.
  apply main_in_range; auto using option_loop_unknown.
Qed.
End Unknown.
(** * Runs of the driver *)

Import Sample.
#[local] Existing Instance runtime.

Lemma to_long_range (x : spec_float) :
  Limits.LONG_MIN <= to_long x <= Limits.LONG_MAX.
Proof.
  assert (Hmin : Limits.LONG_MIN <= Limits.LONG_MIN <= Limits.LONG_MAX)
    by (vm_compute; split; discriminate).
  assert (H0 : Limits.LONG_MIN <= 0 <= Limits.LONG_MAX)
    by (vm_compute; split; discriminate).
  destruct x as [s|s| |s m e]; cbn [to_long]; try assumption.
  match goal with
  | |- context [if ?c then _ else _] => destruct c eqn:E
  end; [|assumption].
  apply andb_true_iff in E. destruct E as [E1 E2].
  apply Z.leb_le in E1, E2. split; assumption.
Qed.

Lemma insert_bucket_begin_perm (buckets : N) (kv : entry) :
  forall nodes l,
    insert_bucket_begin buckets kv nodes = Some l ->
    Permutation l (kv :: nodes).
Proof.
  induction nodes as [|y r IH]; intros l H; [discriminate|].
  cbn [insert_bucket_begin] in H.
  destruct (N.eqb _ _).
  - injection H as <-. apply Permutation_refl.
  - destruct (insert_bucket_begin buckets kv r) as [l'|]; [|discriminate].
    injection H as <-.
    apply Permutation_trans with (y :: kv :: r).
    + apply perm_skip, IH. reflexivity.
    + apply perm_swap.
Qed.

Lemma insert_node_perm (buckets : N) (nodes : list entry) (kv : entry) :
  Permutation (insert_node buckets nodes kv) (kv :: nodes).
Proof.
  unfold insert_node.
  destruct (insert_bucket_begin buckets kv nodes) as [l|] eqn:E.
  - apply (insert_bucket_begin_perm _ _ _ _ E).
  - apply Permutation_refl.
Qed.

Lemma rehash_perm (buckets : N) (nodes : list entry) :
  Permutation (rehash buckets nodes) nodes.
Proof.
  unfold rehash.
  enough (H : forall acc,
             Permutation (List.fold_left (insert_node buckets) nodes acc)
               (acc ++ nodes)) by apply (H []).
  induction nodes as [|kv r IH]; intros acc; cbn [List.fold_left].
  - rewrite List.app_nil_r. apply Permutation_refl.
  - eapply Permutation_trans; [apply IH|].
    eapply Permutation_trans;
      [apply Permutation_app_tail, insert_node_perm|].
    apply Permutation_middle.
Qed.

Lemma insert_perm (table : N * list entry) (kv : entry) :
  Permutation (snd (insert table kv)) (kv :: snd table).
Proof.
  destruct table as [buckets nodes]. unfold insert.
  destruct (_ && _); cbn [snd].
  - apply insert_node_perm.
  - eapply Permutation_trans; [apply insert_node_perm|].
    apply perm_skip, rehash_perm.
Qed.

Lemma node_order_perm (m : list entry) : Permutation (node_order m) m.
Proof.
  unfold node_order.
  enough (H : forall table,
             Permutation (snd (List.fold_left insert m table))
               (snd table ++ m)) by apply (H (1%N, [])).
  induction m as [|kv r IH]; intros table; cbn [List.fold_left].
  - rewrite List.app_nil_r. apply Permutation_refl.
  - eapply Permutation_trans; [apply IH|].
    eapply Permutation_trans; [apply Permutation_app_tail, insert_perm|].
    apply Permutation_middle.
Qed.

Lemma runtime_ok : RuntimeOk runtime.
Proof.
  constructor.
  - reflexivity.
  - intros d. apply to_long_range.
  - exact node_order_perm.
  - reflexivity.
Defined.

#[local] Existing Instance runtime_ok.

Ltac run_sampled p addr :=
  split; [reflexivity|]; split; [reflexivity|];
  exists p, addr;
  split; [reflexivity|]; split; [vm_compute; split; discriminate|];
  split; [reflexivity|]; split; [reflexivity|];
  vm_compute; reflexivity.

Lemma every_10ms_sampled :
  sampled every_10ms 9 ["pystack"; "-s"; "0.05"; "7"]
    (literal "0.05") (literal "0.01")
    ([([C; B; A], 4%N)], 0%N)
    (snd (sample_loop every_10ms 9 7 4096 10000 50000000 [] 0
            (loop_start 7))).
Proof. run_sampled "7" 4096. Defined.

Lemma with_empty_stack_sampled :
  sampled with_empty_stack 9 ["pystack"; "-s"; "0.04"; "7"]
    (literal "0.04") (literal "0.01")
    ([([], 1%N); ([A], 1%N); ([C], 1%N)], 0%N)
    (snd (sample_loop with_empty_stack 9 7 4096 10000 40000000 [] 0
            (loop_start 7))).
Proof. run_sampled "7" 4096. Defined.

Lemma pid_out_of_range_witness :
  let r := main (steady 1000) 0 ["pystack"; "999999999999"] in
  ending r = Exit 1
  /\ cerr (final r) = "PID 999999999999 is out of valid PID range." ++ endl
  /\ cout (final r) = ""
  /\ log (final r) = [].
Proof.
  apply (pid_out_of_range (R := runtime) (steady 1000) 0 ["pystack"; "999999999999"]
           lit_0 lit_0_01 "999999999999").
  - reflexivity.
  - reflexivity.
  - left. vm_compute. reflexivity.
Defined.

Lemma non_numeric_pid_attaches_0_witness :
  Strtol.strtol "abc" = 0
  /\ main (steady 1000) 0 ["pystack"; "abc"]
     = handlers (try_block (steady 1000) 0 0 lit_0 lit_0_01 start)
  /\ exists later,
       List.rev (log (final (main (steady 1000) 0 ["pystack"; "abc"])))
       = Attach 0 None :: later.
Proof.
  apply (non_numeric_pid_attaches_0 (R := runtime) (steady 1000) 0 ["pystack"; "abc"]
           lit_0 lit_0_01 "abc"); reflexivity.
Defined.

Lemma j_option_aborts_witness :
  Getopt.short_lookup "j" optstring = Some Getopt.no_argument
  /\ main (steady 1000) 0 ["pystack"; "-j"; "123"] = mk_run Aborted start.
Proof.
  apply (j_option_aborts (R := runtime) (steady 1000) 0 ["pystack"; "-j"; "123"]
           [] [] (Getopt.mk_ret "j" "" 0) lit_0 lit_0_01); reflexivity.
Defined.

(** C10 as stated fails: with [-h] in front of it [-j] is never looked
    at, the driver prints the usage line and returns 0. *)
Lemma j_after_help_returns_0 :
  let argv := ["pystack"; "-h"; "-j"] in
  let r := main (steady 1000) 0 argv in
  List.In "-j" argv
  /\ ending r = Exit 0
  /\ cout (final r) = usage_str
  /\ ending r <> Aborted.
Proof.
  cbv zeta. repeat split.
  - right. right. left. reflexivity.
  - discriminate.
Qed.

(** Two stacks in the same file, in different functions at different
    lines: one hash value, two keys. *)
Lemma FrameHash_reads_files_only_witness :
  let a := [mk_frame "app.py" "main" 10] in
  let b := [mk_frame "app.py" "serve" 42] in
  FrameHash a = FrameHash b
  /\ (same_key a b = true <-> b = a)
  /\ (forall buckets n, find a buckets = Some n -> List.In (a, n) buckets)
  /\ (forall buckets, find a buckets = None ->
                      forall n, ~ List.In (a, n) buckets).
Proof.
  apply (FrameHash_reads_files_only (R := runtime)). reflexivity.
Defined.

Lemma spoiled_and_empty_sampled :
  sampled spoiled_and_empty 9 ["pystack"; "-s"; "0.04"; "7"]
    (literal "0.04") (literal "0.01")
    ([([A], 1%N); ([], 1%N)], 1%N)
    (snd (sample_loop spoiled_and_empty 9 7 4096 10000 40000000 [] 0
            (loop_start 7))).
Proof. run_sampled "7" 4096. Defined.

(** *** Sampling runs *)

Lemma sampling_prints_folded_stacks_witness :
  let r := main every_10ms 9 ["pystack"; "-s"; "0.05"; "7"] in
  cout (final r) = "app.py:main:10;app.py:serve:42;lib.py:read:7 4" ++ endl
  /\ ending r = Exit 0.
Proof.
  apply (sampling_prints_folded_stacks every_10ms 9 _ _ _ _ _
           every_10ms_sampled).
  reflexivity.
Defined.

Lemma empty_stack_in_buckets_exits_1_witness :
  let r := main with_empty_stack 9 ["pystack"; "-s"; "0.04"; "7"] in
  ending r = Exit 1
  /\ cerr (final r) = "uh oh" ++ endl
  /\ exists before n' after,
       [([C], 1%N); ([A], 1%N); ([], 1%N)]
       = (before ++ ([], n') :: after)%list
       /\ has_empty_key before = false
       /\ cout (final r) = null_line 0 ++ lines before.
Proof.
  refine (empty_stack_in_buckets_exits_1 with_empty_stack 9 _ _ _ _ _ 1%N
            with_empty_stack_sampled _).
  left. reflexivity.
Defined.

(** C3.  A run whose first walk returns a stack, whose second walk
    throws a [NonFatalException] and whose third walk returns the
    empty stack: [empty] is 1, for the walk that threw, and the empty
    stack is a key of the bucket map with the count 1.  The range-for
    visits its bucket first, and the run ends there with ["uh oh"]
    and the exit code 1, the line of the other stack unwritten. *)
Lemma empty_stack_not_counted_as_empty :
  let w := spoiled_and_empty in
  let argv := ["pystack"; "-s"; "0.04"; "7"] in
  let r := main w 9 argv in
  exists be st1,
    sampled w 9 argv (literal "0.04") (literal "0.01") be st1
    /\ walk w 0 = inr [A]
    /\ walk w 1 = inl (NonFatalException "no frame")
    /\ walk w 2 = inr []
    /\ fst be = [([A], 1%N); ([], 1%N)]
    /\ snd be = 1%N
    /\ iteration (fst be) = [([], 1%N); ([A], 1%N)]
    /\ ending r = Exit 1
    /\ cout (final r) = "(null) 1" ++ endl
    /\ cerr (final r) = "uh oh" ++ endl.
Proof.
  cbv zeta. eexists. eexists.
  split; [exact spoiled_and_empty_sampled|].
  repeat split.
Qed.

Lemma every_10ms_fits (D : Z) (upto : nat) :
  0 <= D <= 1000000 -> (upto <= 1000)%nat ->
  no_overflow every_10ms D 10000 upto.
Proof.
  intros HD Hupto.
  unfold no_overflow, in_long, Limits.LONG_MIN, Limits.LONG_MAX.
  cbn [clock every_10ms steady ticks_per_us runtime].
  repeat split; intros; lia.
Defined.

Lemma every_10ms_sleeps (upto : nat) : sleeps_at_least every_10ms 10000 upto.
Proof.
  split; [vm_compute; discriminate|].
  intros k _. cbn [clock every_10ms steady ticks_per_us runtime]. lia.
Defined.

Lemma every_10ms_rounds (upto : nat) :
  rounds_take_at_most every_10ms 10000 10000 upto.
Proof.
  split; [vm_compute; discriminate|].
  intros k _. cbn [clock every_10ms steady ticks_per_us runtime]. lia.
Defined.

Lemma sampling_attempts_witness :
  let be := ([([C; B; A], 4%N)], 0%N) in
  let n :=
    Z.of_nat
      (walks (final (main every_10ms 9 ["pystack"; "-s"; "0.05"; "7"]))) in
  1 <= n
  /\ Z.of_N (snd be + total (fst be)) = n
  /\ n <= ceil_div 50000 10000
  /\ ceil_div 50000 (10000 + 10000) <= n.
Proof.
  destruct (sampling_attempts every_10ms 9 _ _ _ _ _ every_10ms_sampled)
    as (H1 & H2 & H3 & H4).
  split; [exact H1|]. split; [|split].
  - apply H2. vm_compute. reflexivity.
  - apply H3.
    + reflexivity.
    + reflexivity.
    + apply (every_10ms_fits 50000 4); [lia | lia].
    + exact (every_10ms_sleeps 4).
  - apply (H4 10000).
    + reflexivity.
    + apply (every_10ms_fits 50000 4); [lia | lia].
    + exact (every_10ms_rounds 4).
Defined.

(** C2 as stated fails: 0.05 s at an interval of 0.01 s, a first
    capture that takes 10 ms, sleeps of 10 ms, no overflow: the loop
    is left after 4 attempts, fewer than [floor(D/I)] = 5. *)
Lemma four_attempts_in_50ms :
  let w := every_10ms in
  let argv := ["pystack"; "-s"; "0.05"; "7"] in
  let n := Z.of_nat (walks (final (main w 9 argv))) in
  (exists be st1,
     sampled w 9 argv (literal "0.05") (literal "0.01") be st1)
  /\ micros (literal "0.05") = 50000
  /\ micros (literal "0.01") = 10000
  /\ no_overflow w 50000 10000 4
  /\ sleeps_at_least w 10000 4
  /\ n = 4
  /\ 50000 / 10000 = 5
  /\ ~ 50000 / 10000 <= n.
Proof.
  cbv zeta. split; [eexists; eexists; exact every_10ms_sampled|].
  split; [reflexivity|]. split; [reflexivity|].
  split; [apply every_10ms_fits; lia|].
  split; [exact (every_10ms_sleeps 4)|].
  split; [reflexivity|]. split; [reflexivity|].
  vm_compute. intros H. apply H. reflexivity.
Qed.

(** Where the sums overflow the bounds are lost.  The duration
    [10000000000] s is 10^19 ticks, which wrap around to a negative
    number: the loop is left after one capture. *)
Lemma overflowing_duration_one_capture :
  let argv := ["pystack"; "-s"; "10000000000"; "7"] in
  micros (literal "10000000000") = 10 ^ 16
  /\ plus_micros 0 (10 ^ 16) = 10 ^ 19 - 2 ^ 64
  /\ walks (final (main every_10ms 9 argv)) = 1%nat.
Proof. vm_compute. repeat split. Qed.

(** A negative duration next to -2^61 microseconds wraps around to
    about one second: the loop is left after 102 captures, one every
    10 ms. *)
Lemma wrapped_negative_duration_many_captures :
  let argv := ["pystack"; "-s"; "-2305843009212.67"; "7"] in
  micros (literal "-2305843009212.67") = - 2 ^ 61 + 1024000
  /\ plus_micros 0 (- 2 ^ 61 + 1024000) = 1024000000
  /\ walks (final (main every_10ms 200 argv)) = 102%nat.
Proof. vm_compute. repeat split. Qed.

(** *** Errors and the tracing of the target *)

Lemma attach_detach_take_turns_witness :
  let l := log (final (main every_10ms 9 ["pystack"; "-s"; "0.05"; "7"])) in
  alternating l = true
  /\ (forall pid, latest_ptrace l <> Some (Detach pid None))
  /\ left_attached l = true.
Proof.
  destruct (attach_detach_take_turns every_10ms 9
              ["pystack"; "-s"; "0.05"; "7"]) as (H1 & H2 & H3).
  split; [exact H1|]. split; [exact H2|].
  apply H3.
  - intros k. reflexivity.
  - intros k. reflexivity.
  - vm_compute. discriminate.
Defined.

(** C5 as stated fails: a single-shot run attaches, walks, prints and
    returns 0 without any call of [PtraceDetach]. *)
Lemma single_shot_never_detaches :
  let r := main every_10ms 0 ["pystack"; "7"] in
  ending r = Exit 0
  /\ List.rev (log (final r))
     = [Attach 7 None; Locate 7 None; Walk 7 4096 None]
  /\ left_attached (log (final r)) = true
  /\ (forall pid t, ~ List.In (Detach pid t) (log (final r))).
Proof.
  cbv zeta. repeat split.
  intros pid t [H|[H|[H|[]]]]; discriminate.
Qed.

Lemma exceptions_end_the_run_witness :
  (let r := main (scripted 10000000 [inr [A]; inl (FatalException "gone")])
              9 ["pystack"; "-s"; "0.05"; "7"] in
   ending r = Exit 1 /\ cerr (final r) = "gone" ++ endl
   /\ cout (final r) = "")
  /\ (let r := main no_such_process 9 ["pystack"; "7"] in
      ending r = Exit 1 /\ cerr (final r) = "Failed to attach" ++ endl
      /\ cout (final r) = "")
  /\ (let r := main (scripted 10000000 [inl (NonFatalException "no frame")])
                 9 ["pystack"; "7"] in
      ending r = Exit 0 /\ cerr (final r) = "no frame" ++ endl
      /\ cout (final r) = "").
Proof.
  split; [|split].
  - apply (proj1 (exceptions_end_the_run
                    (scripted 10000000 [inr [A]; inl (FatalException "gone")])
                    9 ["pystack"; "-s"; "0.05"; "7"])).
    vm_compute. tauto.
  - apply (proj1 (exceptions_end_the_run no_such_process 9
                    ["pystack"; "7"])).
    vm_compute. tauto.
  - apply (proj2 (exceptions_end_the_run (R := runtime)
                    (scripted 10000000 [inl (NonFatalException "no frame")])
                    9 ["pystack"; "7"]) lit_0 lit_0_01).
    + reflexivity.
    + reflexivity.
    + vm_compute. tauto.
Defined.

(** *** The rest of the driver *)

Lemma single_shot_prints_the_stack_witness :
  let r := main every_10ms 0 ["pystack"; "7"] in
  ending r = Exit 0
  /\ cout (final r)
     = "app.py:main:10" ++ endl ++ "app.py:serve:42" ++ endl
         ++ "lib.py:read:7" ++ endl
  /\ cerr (final r) = ""
  /\ List.rev (log (final r))
     = [Attach 7 None; Locate 7 None; Walk 7 4096 None].
Proof.
  apply (single_shot_prints_the_stack (R := runtime) every_10ms 0
           ["pystack"; "7"] lit_0 lit_0_01 "7" 4096 [C; B; A]);
    try reflexivity.
  vm_compute. split; discriminate.
Defined.

Lemma single_shot_calls_witness :
  exists pid addr t1 t2 t3 n,
    List.rev (log (final (main no_such_process 0 ["pystack"; "7"])))
    = List.firstn n [Attach pid t1; Locate pid t2; Walk pid addr t3].
Proof.
  apply (single_shot_calls (R := runtime) no_such_process 0
           ["pystack"; "7"] lit_0 lit_0_01); reflexivity.
Defined.

Lemma exception_ends_the_run_witness :
  let r := main lost_on_reattach 9 ["pystack"; "-s"; "0.05"; "7"] in
  ending r = Exit 0
  /\ cerr (final r) = "gone" ++ endl
  /\ cout (final r) = "".
Proof.
  apply (exception_ends_the_run (R := runtime) lost_on_reattach 9
           ["pystack"; "-s"; "0.05"; "7"]
           (Attach 7 (Some (NonFatalException "gone")))
           (NonFatalException "gone")).
  - vm_compute. left. reflexivity.
  - reflexivity.
  - reflexivity.
Defined.

Lemma exit_code_is_0_or_1_witness : 1 = 0 \/ 1 = 1.
Proof.
  apply (exit_code_is_0_or_1 (R := runtime) with_empty_stack 9
           ["pystack"; "-s"; "0.04"; "7"] 1).
  reflexivity.
Defined.

Lemma attached_when_read_released_when_asleep_witness :
  released
    (List.skipn 4
       (log (final (main every_10ms 9 ["pystack"; "-s"; "0.05"; "7"]))))
  = true.
Proof.
  apply (attached_when_read_released_when_asleep (R := runtime) every_10ms 9
           ["pystack"; "-s"; "0.05"; "7"]
           [Now; Walk 7 4096 None; Attach 7 None] (Sleep 10000)).
  vm_compute. reflexivity.
Defined.

Lemma one_process_one_address_witness :
  7 = Strtol.strtol "7" /\ thread_state every_10ms = inr 4096.
Proof.
  apply (one_process_one_address (R := runtime) every_10ms 9
           ["pystack"; "-s"; "0.05"; "7"]
           (literal "0.05") (literal "0.01") "7"
           [Now] (Walk 7 4096 None)
           (List.skipn 2
              (log (final (main every_10ms 9
                             ["pystack"; "-s"; "0.05"; "7"]))))).
  - reflexivity.
  - reflexivity.
  - vm_compute. split; discriminate.
  - vm_compute. reflexivity.
Defined.

Lemma one_bucket_for_each_stack_witness :
  List.NoDup [[A]; []].
Proof.
  exact (one_bucket_for_each_stack spoiled_and_empty 9 _ _ _ _ _
           spoiled_and_empty_sampled).
Defined.

Lemma buckets_count_the_walks_witness :
  count_of (R := runtime) [A] [([A], 1%N); ([], 1%N)]
  = occurrences spoiled_and_empty 0 3 [A]
  /\ (List.In [A] [[A]; []] <->
      exists i, (i < 3)%nat /\ walk spoiled_and_empty i = inr [A]).
Proof.
  apply (buckets_count_the_walks spoiled_and_empty 9 _ _ _ _ _ [A]
           spoiled_and_empty_sampled).
  vm_compute. reflexivity.
Defined.

(** Two files the other way round: one hash value. *)
Lemma FrameHash_ignores_the_order_witness :
  FrameHash (R := runtime) [A; C] = FrameHash (R := runtime) [C; A].
Proof.
  apply (FrameHash_ignores_the_order (R := runtime)).
  apply perm_swap.
Defined.

Lemma every_10ms_sampled_once :
  sampled every_10ms 9 ["pystack"; "-s"; "0.01"; "7"]
    (literal "0.01") (literal "0.01")
    ([([C; B; A], 1%N)], 0%N)
    (snd (sample_loop every_10ms 9 7 4096 10000 10000000 [] 0
            (loop_start 7))).
Proof. run_sampled "7" 4096. Defined.

Lemma one_capture_when_interval_covers_duration_witness :
  exists pid addr t,
    List.rev (log (final (main every_10ms 9 ["pystack"; "-s"; "0.01"; "7"])))
    = [Attach pid None; Locate pid None; Now; Walk pid addr t; Now].
Proof.
  apply (one_capture_when_interval_covers_duration every_10ms 9 _ _ _ _ _
           every_10ms_sampled_once).
  - vm_compute. discriminate.
  - apply (every_10ms_fits 10000 1); [lia | lia].
  - vm_compute. discriminate.
Defined.

Lemma calls_of_a_sampling_run_witness :
  let st := final (main every_10ms 9 ["pystack"; "-s"; "0.05"; "7"]) in
  attaches st = walks st /\ S (detaches st) = walks st
  /\ readings st = S (walks st).
Proof.
  exact (calls_of_a_sampling_run every_10ms 9 _ _ _ _ _ every_10ms_sampled).
Defined.

Lemma usage_error_witness :
  main every_10ms 0 ["pystack"; "7"; "8"]
  = mk_run (Exit 1) (mk_state [] 0 0 0 0 "" usage_str).
Proof.
  apply (usage_error (R := runtime) every_10ms 0 "pystack" ["7"; "8"]
           lit_0 lit_0_01).
  - reflexivity.
  - vm_compute. discriminate.
Defined.

Lemma help_and_version_witness :
  main every_10ms 0 ["pystack"; "-s"; "1"; "--help"; "-j"]
  = mk_run (Exit 0) (mk_state [] 0 0 0 0 usage_str "")
  /\ main every_10ms 0 ["pystack"; "-v"]
     = mk_run (Exit 0) (mk_state [] 0 0 0 0 ("pystack 1.0" ++ endl) "").
Proof.
  split.
  - apply (proj1 (help_and_version (R := runtime) every_10ms 0
                    ["pystack"; "-s"; "1"; "--help"; "-j"]
                    [Getopt.mk_ret "s" "1" 0] [Getopt.mk_ret "j" "" 0]
                    (Getopt.mk_ret "h" "" 0) (literal "1") lit_0_01
                    eq_refl eq_refl)).
    reflexivity.
  - apply (proj2 (help_and_version (R := runtime) every_10ms 0
                    ["pystack"; "-v"] [] [] (Getopt.mk_ret "v" "" 0)
                    lit_0 lit_0_01 eq_refl eq_refl)).
    reflexivity.
Defined.

Lemma bad_number_terminates_witness :
  main every_10ms 0 ["pystack"; "-r"; "fast"; "7"] = mk_run Terminated start.
Proof.
  apply (bad_number_terminates (R := runtime) every_10ms 0
           ["pystack"; "-r"; "fast"; "7"] [] []
           (Getopt.mk_ret "r" "fast" 0) lit_0 lit_0_01).
  - reflexivity.
  - reflexivity.
  - left. reflexivity.
  - reflexivity.
Defined.

Lemma abort_only_for_j_witness :
  exists x,
    List.In x (getopt_rets ["pystack"; "-jv"; "7"])
    /\ Getopt.c x = "j"%char.
Proof.
  apply (abort_only_for_j (R := runtime) every_10ms 0
           ["pystack"; "-jv"; "7"]).
  reflexivity.
Defined.

Lemma main_finishes_witness :
  ending (main every_10ms 5 ["pystack"; "-s"; "0.05"; "7"]) <> Unfinished.
Proof.
  apply (main_finishes (R := runtime) every_10ms 5
           ["pystack"; "-s"; "0.05"; "7"]
           (literal "0.05") (literal "0.01")).
  - reflexivity.
  - reflexivity.
  - apply (every_10ms_fits 50000 5); [lia | lia].
  - exact (every_10ms_sleeps 5).
  - lia.
  - vm_compute. discriminate.
Defined.

Lemma unknown_options_are_passed_over_witness :
  main every_10ms 0 ["pystack"; "--bogus"; "-x"; "7"]
  = handlers (try_block every_10ms 0 7 lit_0 lit_0_01 start).
Proof.
  apply (unknown_options_are_passed_over (R := runtime) every_10ms 0
           ["pystack"; "--bogus"; "-x"; "7"] "7").
  - intros x [<-|[<-|[]]]; reflexivity.
  - reflexivity.
  - vm_compute. split; discriminate.
Defined.
